(** * elftools.dwarf.compileunit: the DWARF compile unit

    A shallow embedding of the class [CompileUnit] of
    [elftools/dwarf/compileunit.py] and the properties of its lazy DIE-list
    materialization, its memoized abbreviation table and its header access.
    The DIE constructor lives in another module: it comes first as a
    decoder that leaves the unit alone, then, in [Handed], as a computation
    over the unit it is handed.

    Python integers are unbounded, so offsets, sizes and header values are
    [Z].  The header is a dict with string keys: a [gmap string Z].  The
    instance attributes [_abbrev_table] and [_dielist] are mutated in place,
    so every method is a computation over the instance, in a small
    state-and-exception monad. *)

From Stdlib Require Import ZArith Lia.
From stdpp Require Import gmap strings list fin_maps.

Local Open Scope Z_scope.

(** ** Exceptions and outcomes *)

(** The exceptions the module can see.  [KeyError] is what [header[name]]
    raises on an absent key, [IndexError] what a list subscript raises out of
    range.  The module has no [raise] statement of its own; everything else
    comes out of a collaborator (the DIE constructor or the owning
    DWARFInfo) and is carried as [ExternalError]. *)
Inductive exn : Type :=
  | KeyError (key : string)
  | IndexError
  | ExternalError (tag : Z).

(** How a call ends: it returns, it raises, or the fuel given to the
    [while] loop ran out before the loop condition became false. *)
Inductive outcome (A : Type) : Type :=
  | Return (a : A)
  | Raise (e : exn)
  | OutOfFuel.
Arguments Return {A} a.
Arguments Raise {A} e.
Arguments OutOfFuel {A}.

(** Calls worth counting: the owning context's resolver, the DIE
    constructor, and entries into [_parse_DIEs]. *)
Inductive call : Type :=
  | ResolveSchema (offset : Z)
  | DecodeRecord (offset : Z)
  | ParseDIEs.

(** [self._dielist[index]] on a Python list: a negative index counts from
    the end; anything still out of range raises [IndexError]. *)
Definition list_getitem {A : Type} (l : list A) (index : Z) : exn + A :=
  let len := Z.of_nat (length l) in
  let i := if bool_decide (index < 0) then index + len else index in
  if bool_decide (i < 0 ∨ len ≤ i) then inl IndexError
  else match l !! Z.to_nat i with
       | Some x => inr x
       | None => inl IndexError
       end.

Section CompileUnit.

(** The collaborators live in other modules ([.die], the DWARFInfo context,
    DWARFStructs); here they are parameters.  Their types: the stream, the
    abbreviation table and the DIE objects.  Of a DIE the unit reads only
    its [size]. *)
Variables (Stream AbbrevTable DIE : Type).
Variable size : DIE → Z.

(** The owning context: the stream and the lookup of an abbreviation table
    by offset, which returns a table object (never Python's [None]) or
    raises. *)
Record DWARFInfo : Type := {
  stream : Stream;
  DWARFInfo_get_abbrev_table : Z → exn + AbbrevTable
}.

(** The format descriptor; [initial_length_field_size()] takes no argument
    and reads no state, so it is its value. *)
Record DWARFStructs : Type := {
  initial_length_field_size : Z
}.

(** The attributes set by [__init__].  [_abbrev_table] is [None] until the
    table has been fetched. *)
Record CompileUnit : Type := {
  dwarfinfo : DWARFInfo;
  header : gmap string Z;
  structs : DWARFStructs;
  cu_offset : Z;
  cu_die_offset : Z;
  _abbrev_table : option AbbrevTable;
  _dielist : list DIE
}.

(** [DIE(cu=..., stream=..., offset=...)] as a decoder: a constructor that
    reads the unit it is handed, as it is at the time of the call, and
    returns a DIE or raises, leaving the unit alone.  Offsets, sizes and
    the contents of the list are stated over it.  The constructor that also
    acts on the unit it is handed is [DIE_init] of [Handed] below, of which
    this one is the case [Handed.of_decoder]. *)
Variable DIE_new : CompileUnit → Stream → Z → exn + DIE.

Definition __init__ (hdr : gmap string Z) (di : DWARFInfo)
    (st : DWARFStructs) (cu_off cu_die_off : Z) : CompileUnit :=
  {| dwarfinfo := di; header := hdr; structs := st;
     cu_offset := cu_off; cu_die_offset := cu_die_off;
     _abbrev_table := None; _dielist := [] |}.

(** *** The monad *)

(** The instance together with the log of calls made so far. *)
Record World : Type := {
  self : CompileUnit;
  calls : list call
}.

Definition M (A : Type) : Type := World → outcome A * World.

#[export] Instance M_ret : MRet M := λ A a w, (Return a, w).
#[export] Instance M_bind : MBind M := λ A B f m w,
  match m w with
  | (Return a, w') => f a w'
  | (Raise e, w') => (Raise e, w')
  | (OutOfFuel, w') => (OutOfFuel, w')
  end.

Definition raise {A : Type} (e : exn) : M A := λ w, (Raise e, w).
Definition out_of_fuel {A : Type} : M A := λ w, (OutOfFuel, w).
Definition get_self : M CompileUnit := λ w, (Return (self w), w).
Definition log (c : call) : M unit :=
  λ w, (Return tt, {| self := self w; calls := calls w ++ [c] |}).
Definition lift {A : Type} (r : exn + A) : M A :=
  match r with inl e => raise e | inr a => mret a end.

(** The instance with one attribute rebound, the others as they were. *)
Definition with_abbrev_table (cu : CompileUnit) (t : AbbrevTable)
    : CompileUnit :=
  {| dwarfinfo := dwarfinfo cu; header := header cu;
     structs := structs cu; cu_offset := cu_offset cu;
     cu_die_offset := cu_die_offset cu;
     _abbrev_table := Some t; _dielist := _dielist cu |}.

Definition with_dielist (cu : CompileUnit) (l : list DIE) : CompileUnit :=
  {| dwarfinfo := dwarfinfo cu; header := header cu;
     structs := structs cu; cu_offset := cu_offset cu;
     cu_die_offset := cu_die_offset cu;
     _abbrev_table := _abbrev_table cu; _dielist := l |}.

(** [self._abbrev_table = t] *)
Definition set_abbrev_table (t : AbbrevTable) : M unit := λ w,
  (Return tt,
   {| self := with_abbrev_table (self w) t; calls := calls w |}).

(** [self._dielist.append(die)]: the list object is extended in place. *)
Definition dielist_append (die : DIE) : M unit := λ w,
  (Return tt,
   {| self := with_dielist (self w) (_dielist (self w) ++ [die]);
      calls := calls w |}).

(** *** The methods *)

(** [return self.header[name]] *)
Definition __getitem__ (name : string) : M Z :=
  cu ← get_self;
  match header cu !! name with
  | Some v => mret v
  | None => raise (KeyError name)
  end.

Definition get_abbrev_table : M AbbrevTable :=
  cu ← get_self;
  match _abbrev_table cu with
  | None =>
      off ← __getitem__ "debug_abbrev_offset";
      log (ResolveSchema off);;
      t ← lift (DWARFInfo_get_abbrev_table (dwarfinfo cu) off);
      set_abbrev_table t;;
      mret t
  | Some t => mret t
  end.

(** The [while die_offset < cu_boundary] loop.  Each unit of fuel pays for
    one test of the condition. *)
Fixpoint parse_loop (fuel : nat) (cu_boundary die_offset : Z) : M unit :=
  match fuel with
  | O => out_of_fuel
  | S fuel' =>
      if bool_decide (die_offset < cu_boundary) then
        cu ← get_self;
        log (DecodeRecord die_offset);;
        die ← lift (DIE_new cu (stream (dwarfinfo cu)) die_offset);
        dielist_append die;;
        parse_loop fuel' cu_boundary (die_offset + size die)
      else mret tt
  end.

(** The boundary (one byte past the bounds) of this CU in the stream. *)
Definition boundary_of (cu : CompileUnit) (unit_length : Z) : Z :=
  cu_offset cu + unit_length + initial_length_field_size (structs cu).

Definition cu_boundary : M Z :=
  cu ← get_self;
  unit_length ← __getitem__ "unit_length";
  mret (boundary_of cu unit_length).

Definition _parse_DIEs (fuel : nat) : M unit :=
  log ParseDIEs;;
  boundary ← cu_boundary;
  cu ← get_self;
  parse_loop fuel boundary (cu_die_offset cu).

Definition _get_DIE (fuel : nat) (index : Z) : M DIE :=
  cu ← get_self;
  (if bool_decide (length (_dielist cu) = 0%nat)
   then _parse_DIEs fuel else mret tt);;
  cu' ← get_self;
  lift (list_getitem (_dielist cu') index).

Definition get_top_DIE (fuel : nat) : M DIE := _get_DIE fuel 0.

(** *** Vocabulary of the statements *)

(** The world after one more call has been logged. *)
Definition logged (w : World) (c : call) : World :=
  {| self := self w; calls := calls w ++ [c] |}.

(** The world after one turn of the loop body: the constructor was called
    at [offset] and the DIE it returned was appended. *)
Definition after_decode (w : World) (offset : Z) (die : DIE) : World :=
  {| self := with_dielist (self w) (_dielist (self w) ++ [die]);
     calls := calls w ++ [DecodeRecord offset] |}.

(** [walk boundary o w l o' w']: from cursor [o] in world [w], the loop
    body runs once per record of [l], each time below the boundary and
    with a constructor call that returns, and leaves the cursor at [o'] in
    world [w']. *)
Inductive walk (boundary : Z)
    : Z → World → list DIE → Z → World → Prop :=
  | walk_done o w : walk boundary o w [] o w
  | walk_step o w die l o' w' :
      o < boundary →
      DIE_new (self w) (stream (dwarfinfo (self w))) o = inr die →
      walk boundary (o + size die) (after_decode w o die) l o' w' →
      walk boundary o w (die :: l) o' w'.

(** The offsets at which the records of [l] start when the first starts
    at [o]. *)
Fixpoint offsets (o : Z) (l : list DIE) : list Z :=
  match l with
  | [] => []
  | die :: l' => o :: offsets (o + size die) l'
  end.

(** The bytes covered by a run of records: the sum of their sizes. *)
Definition sizes_sum (l : list DIE) : Z :=
  foldr (λ die acc, size die + acc) 0 l.

(** What the record decoder owes the unit between its top DIE and a
    boundary: a size that is positive and stays inside the unit. *)
Definition decoder_contract (cu : CompileUnit) (boundary : Z) : Prop :=
  ∀ cu' offset die,
    cu_die_offset cu ≤ offset < boundary →
    DIE_new cu' (stream (dwarfinfo cu)) offset = inr die →
    0 < size die ∧ offset + size die ≤ boundary.

(** The attributes other than [_dielist] agree. *)
Definition same_but_dielist (cu cu' : CompileUnit) : Prop :=
  dwarfinfo cu' = dwarfinfo cu ∧ header cu' = header cu ∧
  structs cu' = structs cu ∧ cu_offset cu' = cu_offset cu ∧
  cu_die_offset cu' = cu_die_offset cu ∧
  _abbrev_table cu' = _abbrev_table cu.

(** How many times a call satisfying [p] occurs in a log. *)
Definition count_calls (p : call → bool) (cs : list call) : nat :=
  length (filter (λ c, p c = true) cs).

End CompileUnit.

Definition is_ParseDIEs (c : call) : bool :=
  match c with ParseDIEs => true | _ => false end.
Definition is_ResolveSchema (c : call) : bool :=
  match c with ResolveSchema _ => true | _ => false end.
Definition is_DecodeRecord (c : call) : bool :=
  match c with DecodeRecord _ => true | _ => false end.

Arguments stream {Stream AbbrevTable} _.
Arguments DWARFInfo_get_abbrev_table {Stream AbbrevTable} _ _.
Arguments dwarfinfo {Stream AbbrevTable DIE} _.
Arguments header {Stream AbbrevTable DIE} _.
Arguments structs {Stream AbbrevTable DIE} _.
Arguments cu_offset {Stream AbbrevTable DIE} _.
Arguments cu_die_offset {Stream AbbrevTable DIE} _.
Arguments _abbrev_table {Stream AbbrevTable DIE} _.
Arguments _dielist {Stream AbbrevTable DIE} _.
Arguments self {Stream AbbrevTable DIE} _.
Arguments calls {Stream AbbrevTable DIE} _.
Arguments with_dielist {Stream AbbrevTable DIE} _ _.
Arguments with_abbrev_table {Stream AbbrevTable DIE} _ _.
Arguments boundary_of {Stream AbbrevTable DIE} _ _.
Arguments same_but_dielist {Stream AbbrevTable DIE} _ _.
Arguments sizes_sum {DIE} _ _.
Arguments __init__ {Stream AbbrevTable} DIE _ _ _ _ _.
Arguments __getitem__ {Stream AbbrevTable DIE} _ _.
Arguments get_abbrev_table {Stream AbbrevTable DIE} _.
Arguments cu_boundary {Stream AbbrevTable DIE} _.
Arguments parse_loop {Stream AbbrevTable DIE} _ _ _ _ _ _.
Arguments _parse_DIEs {Stream AbbrevTable DIE} _ _ _ _.
Arguments _get_DIE {Stream AbbrevTable DIE} _ _ _ _ _.
Arguments get_top_DIE {Stream AbbrevTable DIE} _ _ _ _.
Arguments decoder_contract {Stream AbbrevTable DIE} _ _ _ _.
Arguments logged {Stream AbbrevTable DIE} _ _.
Arguments after_decode {Stream AbbrevTable DIE} _ _ _.
Arguments walk {Stream AbbrevTable DIE} _ _ _ _ _ _ _ _.
Arguments offsets {DIE} _ _ _.
Arguments raise {Stream AbbrevTable DIE A} _ _.
Arguments lift {Stream AbbrevTable DIE A} _ _.
Arguments get_self {Stream AbbrevTable DIE} _.
Arguments log {Stream AbbrevTable DIE} _ _.
Arguments out_of_fuel {Stream AbbrevTable DIE A} _.
Arguments set_abbrev_table {Stream AbbrevTable DIE} _ _.
Arguments dielist_append {Stream AbbrevTable DIE} _ _.

(** ** The constructor handed the unit

    [_parse_DIEs] passes [cu=self]: the constructor holds the instance, not
    a copy, and what it does to it shows in the unit afterwards.  The
    abbreviation table is "filled lazily when DIEs are requested": a
    constructor that asks the unit for its table fills [_abbrev_table]
    in the middle of the walk.  Here the constructor is any computation
    over the unit, and the methods that reach it are written again over
    it, under their own names. *)
Module Handed.

Section CompileUnit.

Context {Stream AbbrevTable DIE : Type}.
Variable size : DIE → Z.

(** [DIE(cu=self, stream=..., offset=...)], run on the instance. *)
Variable DIE_init : Stream → Z → M Stream AbbrevTable DIE DIE.

Fixpoint parse_loop (fuel : nat) (cu_boundary die_offset : Z)
    : M Stream AbbrevTable DIE unit :=
  match fuel with
  | O => out_of_fuel
  | S fuel' =>
      if bool_decide (die_offset < cu_boundary) then
        cu ← get_self;
        log (DecodeRecord die_offset);;
        die ← DIE_init (stream (dwarfinfo cu)) die_offset;
        dielist_append die;;
        parse_loop fuel' cu_boundary (die_offset + size die)
      else mret tt
  end.

Definition _parse_DIEs (fuel : nat) : M Stream AbbrevTable DIE unit :=
  log ParseDIEs;;
  boundary ← cu_boundary;
  cu ← get_self;
  parse_loop fuel boundary (cu_die_offset cu).

Definition _get_DIE (fuel : nat) (index : Z) : M Stream AbbrevTable DIE DIE :=
  cu ← get_self;
  (if bool_decide (length (_dielist cu) = 0%nat)
   then _parse_DIEs fuel else mret tt);;
  cu' ← get_self;
  lift (list_getitem (_dielist cu') index).

Definition get_top_DIE (fuel : nat) : M Stream AbbrevTable DIE DIE :=
  _get_DIE fuel 0.

(** The world after [self._dielist.append(die)]. *)
Definition appended (w : World Stream AbbrevTable DIE) (die : DIE)
    : World Stream AbbrevTable DIE :=
  {| self := with_dielist (self w) (_dielist (self w) ++ [die]);
     calls := calls w |}.

(** [walk boundary o w l o' w']: from cursor [o] in world [w], the loop
    body runs once per record of [l], each time below the boundary and
    with a constructor call that returns, and leaves the cursor at [o'] in
    world [w']. *)
Inductive walk (boundary : Z)
    : Z → World Stream AbbrevTable DIE → list DIE →
      Z → World Stream AbbrevTable DIE → Prop :=
  | walk_done o w : walk boundary o w [] o w
  | walk_step o w w1 die l o' w' :
      o < boundary →
      DIE_init (stream (dwarfinfo (self w))) o (logged w (DecodeRecord o))
      = (Return die, w1) →
      walk boundary (o + size die) (appended w1 die) l o' w' →
      walk boundary o w (die :: l) o' w'.

(** What a unit keeps when at most its abbreviation table is filled and
    its list changed: the five attributes of [__init__], and a table once
    it is cached. *)
Definition unit_frame (cu cu' : CompileUnit Stream AbbrevTable DIE) : Prop :=
  dwarfinfo cu' = dwarfinfo cu ∧ header cu' = header cu ∧
  structs cu' = structs cu ∧ cu_offset cu' = cu_offset cu ∧
  cu_die_offset cu' = cu_die_offset cu ∧
  (∀ t, _abbrev_table cu = Some t → _abbrev_table cu' = Some t).

(** A constructor that touches the unit at most by filling its
    abbreviation table. *)
Definition fills_table_only : Prop :=
  ∀ (s : Stream) (o : Z) (w : World Stream AbbrevTable DIE),
    unit_frame (self w) (self (snd (DIE_init s o w))) ∧
    _dielist (self (snd (DIE_init s o w))) = _dielist (self w).

(** The constructor that is a decoder: it reads the unit and leaves it
    alone. *)
Definition of_decoder
    (DIE_new : CompileUnit Stream AbbrevTable DIE → Stream → Z →
               exn + DIE)
    : Stream → Z → M Stream AbbrevTable DIE DIE :=
  λ s o, cu ← get_self; lift (DIE_new cu s o).

(** The constructor that first asks the unit for its abbreviation table,
    then decodes. *)
Definition requesting_table
    (DIE_new : CompileUnit Stream AbbrevTable DIE → Stream → Z →
               exn + DIE)
    : Stream → Z → M Stream AbbrevTable DIE DIE :=
  λ s o, get_abbrev_table;; cu ← get_self; lift (DIE_new cu s o).

End CompileUnit.

End Handed.

(** ** A concrete unit

    The unit of the worked scenario: a header at offset 0 with a 4-byte
    initial length, the top DIE at offset 11.  The DIE constructor is a table
    from offsets to sizes; at an offset outside the table it raises. *)
Module Scenario.

Record die : Type := { die_offset : Z; die_size : Z }.

Fixpoint size_at (table : list (Z * Z)) (offset : Z) : option Z :=
  match table with
  | [] => None
  | (o, n) :: rest => if bool_decide (o = offset) then Some n
                      else size_at rest offset
  end.

Definition decoder (table : list (Z * Z))
    (cu : CompileUnit unit Z die) (s : unit) (offset : Z) : exn + die :=
  match size_at table offset with
  | Some n => inr {| die_offset := offset; die_size := n |}
  | None => inl (ExternalError offset)
  end.

Definition context : DWARFInfo unit Z :=
  {| stream := tt; DWARFInfo_get_abbrev_table := λ off, inr (off + 1000) |}.

Definition header_of (unit_length : Z) : gmap string Z :=
  <["unit_length" := unit_length]> (<["debug_abbrev_offset" := 0]> ∅).

Definition unit_of (unit_length : Z) : CompileUnit unit Z die :=
  __init__ die (header_of unit_length) context
    {| initial_length_field_size := 4 |} 0 11.

Definition start (unit_length : Z) : World unit Z die :=
  {| self := unit_of unit_length; calls := [] |}.

(** Sizes 5, 20, 8 at offsets 11, 16, 36: the walk lands on 44. *)
Definition well_formed : list (Z * Z) := [(11, 5); (16, 20); (36, 8)].
(** The second record reports size 0. *)
Definition zero_size : list (Z * Z) := [(11, 5); (16, 0); (36, 8)].
(** The third record claims 10 bytes, two past the boundary. *)
Definition overshoot : list (Z * Z) := [(11, 5); (16, 20); (36, 10)].
(** The second record cannot be decoded. *)
Definition broken : list (Z * Z) := [(11, 5)].

Definition parse (table : list (Z * Z)) (fuel : nat) :=
  _parse_DIEs die_size (decoder table) fuel.
Definition get (table : list (Z * Z)) (fuel : nat) (index : Z) :=
  _get_DIE die_size (decoder table) fuel index.

(** The world a walk over [records] leaves, with constructor calls at
    [decodes]. *)
Definition parsed (unit_length : Z) (records : list die)
    (decodes : list Z) : World unit Z die :=
  {| self := with_dielist (unit_of unit_length) records;
     calls := ParseDIEs :: (DecodeRecord <$> decodes) |}.

Definition finished : World unit Z die :=
  parsed 40 [Build_die 11 5; Build_die 16 20; Build_die 36 8] [11; 16; 36].

Definition after_failure : World unit Z die :=
  parsed 40 [Build_die 11 5] [11; 16].

(** A context whose lookup of the abbreviation table raises. *)
Definition failing_context : DWARFInfo unit Z :=
  {| stream := tt;
     DWARFInfo_get_abbrev_table := λ off, inl (ExternalError off) |}.

(** A unit built over a given header and context, offsets as before. *)
Definition unit_with (hdr : gmap string Z) (di : DWARFInfo unit Z)
    : CompileUnit unit Z die :=
  __init__ die hdr di {| initial_length_field_size := 4 |} 0 11.

Definition start_with (hdr : gmap string Z) (di : DWARFInfo unit Z)
    : World unit Z die :=
  {| self := unit_with hdr di; calls := [] |}.

(** The constructor that asks the unit for its table before it decodes
    from [table]. *)
Definition constructor (table : list (Z * Z))
    : unit → Z → M unit Z die die :=
  Handed.requesting_table (decoder table).

(** The unit once its abbreviation table has been fetched. *)
Definition cached : World unit Z die :=
  {| self := with_abbrev_table (unit_of 40) 1000;
     calls := [ResolveSchema 0] |}.

Definition parse_handed (table : list (Z * Z)) (fuel : nat) :=
  Handed._parse_DIEs die_size (constructor table) fuel.
Definition get_handed (table : list (Z * Z)) (fuel : nat) (index : Z) :=
  Handed._get_DIE die_size (constructor table) fuel index.

End Scenario.

(** * Properties *)

(** ** Python's list subscript *)

Section ListGetitem.

Context {A : Type}.
Implicit Types (l : list A) (index : Z).

Lemma list_getitem_nonneg l index :
  0 ≤ index < Z.of_nat (length l) →
  ∃ x, l !! Z.to_nat index = Some x ∧ list_getitem l index = inr x.
Proof.
  intros Hi. destruct (lookup_lt_is_Some_2 l (Z.to_nat index)) as [x Hx];
    [lia|].
  exists x. split; [done|]. unfold list_getitem.
  rewrite (bool_decide_eq_false_2 (index < 0)) by lia.
  rewrite bool_decide_eq_false_2 by lia. by rewrite Hx.
Qed.

Lemma list_getitem_negative l index :
  - Z.of_nat (length l) ≤ index < 0 →
  ∃ x, l !! Z.to_nat (Z.of_nat (length l) + index) = Some x ∧
       list_getitem l index = inr x.
Proof.
  intros Hi.
  destruct (lookup_lt_is_Some_2 l (Z.to_nat (Z.of_nat (length l) + index)))
    as [x Hx]; [lia|].
  exists x. split; [done|]. unfold list_getitem.
  rewrite (bool_decide_eq_true_2 (index < 0)) by lia.
  rewrite bool_decide_eq_false_2 by lia.
  by rewrite (Z.add_comm index), Hx.
Qed.

Lemma list_getitem_out_of_range l index :
  index < - Z.of_nat (length l) ∨ Z.of_nat (length l) ≤ index →
  list_getitem l index = inl IndexError.
Proof.
  intros Hi. unfold list_getitem.
  destruct (decide (index < 0)).
  - rewrite (bool_decide_eq_true_2 (index < 0)) by done.
    rewrite bool_decide_eq_true_2 by lia. done.
  - rewrite (bool_decide_eq_false_2 (index < 0)) by done.
    rewrite bool_decide_eq_true_2 by lia. done.
Qed.

End ListGetitem.

(** ** Counting calls *)

Lemma count_calls_app (p : call → bool) (cs cs' : list call) :
  count_calls p (cs ++ cs') = (count_calls p cs + count_calls p cs')%nat.
Proof. unfold count_calls. by rewrite filter_app, length_app. Qed.

Lemma count_calls_singleton (p : call → bool) (c : call) :
  count_calls p [c] = if p c then 1%nat else 0%nat.
Proof.
  unfold count_calls. destruct (p c) eqn:Hp.
  - by rewrite filter_cons_True.
  - rewrite filter_cons_False; [done|]. by rewrite Hp.
Qed.

Lemma count_calls_decodes (p : call → bool) (offs : list Z) :
  (∀ o, p (DecodeRecord o) = false) →
  count_calls p (DecodeRecord <$> offs) = 0%nat.
Proof.
  intros Hp. unfold count_calls. induction offs as [|o offs IH]; [done|].
  simpl. rewrite filter_cons_False; [done|]. by rewrite Hp.
Qed.

Section Properties.

Context {Stream AbbrevTable DIE : Type}.
Variable size : DIE → Z.
Variable DIE_new :
  CompileUnit Stream AbbrevTable DIE → Stream → Z → exn + DIE.

Abbreviation CU := (CompileUnit Stream AbbrevTable DIE).
Abbreviation Wd := (World Stream AbbrevTable DIE).

(** ** The methods, one step at a time *)

Ltac run_M :=
  unfold mbind, M_bind, mret, M_ret, get_self, log, lift, raise,
    out_of_fuel, dielist_append, set_abbrev_table; simpl.

Lemma getitem_run (name : string) (w : Wd) :
  __getitem__ name w =
  match header (self w) !! name with
  | Some v => (Return v, w)
  | None => (Raise (KeyError name), w)
  end.
Proof. unfold __getitem__. run_M. by destruct (header (self w) !! name). Qed.

Lemma cu_boundary_run (w : Wd) :
  cu_boundary w =
  match header (self w) !! "unit_length" with
  | Some ul => (Return (boundary_of (self w) ul), w)
  | None => (Raise (KeyError "unit_length"), w)
  end.
Proof.
  unfold cu_boundary. run_M. rewrite getitem_run.
  by destruct (header (self w) !! "unit_length").
Qed.

Lemma parse_loop_O (b o : Z) (w : Wd) :
  parse_loop size DIE_new 0 b o w = (OutOfFuel, w).
Proof. reflexivity. Qed.

Lemma parse_loop_S (fuel : nat) (b o : Z) (w : Wd) :
  parse_loop size DIE_new (S fuel) b o w =
  if bool_decide (o < b) then
    match DIE_new (self w) (stream (dwarfinfo (self w))) o with
    | inl e => (Raise e, logged w (DecodeRecord o))
    | inr die =>
        parse_loop size DIE_new fuel b (o + size die) (after_decode w o die)
    end
  else (Return tt, w).
Proof.
  simpl. case_bool_decide; [|done]. run_M.
  by destruct (DIE_new (self w) (stream (dwarfinfo (self w))) o).
Qed.

Lemma parse_DIEs_run (fuel : nat) (w : Wd) :
  _parse_DIEs size DIE_new fuel w =
  match header (self w) !! "unit_length" with
  | Some ul => parse_loop size DIE_new fuel (boundary_of (self w) ul)
                 (cu_die_offset (self w)) (logged w ParseDIEs)
  | None => (Raise (KeyError "unit_length"), logged w ParseDIEs)
  end.
Proof.
  unfold _parse_DIEs. run_M. rewrite cu_boundary_run. simpl.
  by destruct (header (self w) !! "unit_length").
Qed.

Lemma get_DIE_run (fuel : nat) (index : Z) (w : Wd) :
  _get_DIE size DIE_new fuel index w =
  if bool_decide (length (_dielist (self w)) = 0%nat) then
    match _parse_DIEs size DIE_new fuel w with
    | (Return _, w') => lift (list_getitem (_dielist (self w')) index) w'
    | (Raise e, w') => (Raise e, w')
    | (OutOfFuel, w') => (OutOfFuel, w')
    end
  else lift (list_getitem (_dielist (self w)) index) w.
Proof.
  unfold _get_DIE. run_M. case_bool_decide; [|done].
  by destruct (_parse_DIEs size DIE_new fuel w) as [[[]| |] w'].
Qed.

(** ** The loop as a walk *)

Lemma with_dielist_id (cu : CU) : with_dielist cu (_dielist cu) = cu.
Proof. by destruct cu. Qed.

Lemma walk_facts (b o o' : Z) (w w' : Wd) (l : list DIE) :
  walk size DIE_new b o w l o' w' →
  o' = o + sizes_sum size l ∧
  self w' = with_dielist (self w) (_dielist (self w) ++ l) ∧
  calls w' = calls w ++ (DecodeRecord <$> offsets size o l).
Proof.
  induction 1 as [o w|o w die l o' w' Hlt Hdec Hwalk IH]; simpl.
  - rewrite !app_nil_r, with_dielist_id. split; [lia|done].
  - destruct IH as (-> & -> & ->). simpl.
    rewrite <- !app_assoc. split; [lia|done].
Qed.

Lemma walk_lookup (b o o' : Z) (w w' : Wd) (l : list DIE) :
  walk size DIE_new b o w l o' w' →
  ∀ (i : nat) (die : DIE), l !! i = Some die →
    o + sizes_sum size (take i l) < b ∧
    DIE_new (with_dielist (self w) (_dielist (self w) ++ take i l))
      (stream (dwarfinfo (self w))) (o + sizes_sum size (take i l))
    = inr die.
Proof.
  induction 1 as [o w|o w die l o' w' Hlt Hdec Hwalk IH];
    intros i d Hi; [done|].
  destruct i as [|i]; simpl in *.
  - injection Hi as <-.
    rewrite app_nil_r, with_dielist_id, Z.add_0_r. done.
  - destruct (IH i d Hi) as [Hb Hd]. simpl in Hd.
    rewrite <- app_assoc in Hd. simpl in Hd.
    rewrite Z.add_assoc. done.
Qed.

(** Whatever the loop does, it does along a walk: it returns once the
    cursor is at or past the boundary, and it raises what the constructor
    raised at the cursor it had reached. *)
Lemma parse_loop_walk (fuel : nat) (b o : Z) (w w' : Wd) (r : outcome unit) :
  parse_loop size DIE_new fuel b o w = (r, w') →
  ∃ l o1 w1, walk size DIE_new b o w l o1 w1 ∧
    match r with
    | Return _ => b ≤ o1 ∧ w' = w1
    | Raise e =>
        o1 < b ∧
        DIE_new (self w1) (stream (dwarfinfo (self w1))) o1 = inl e ∧
        w' = logged w1 (DecodeRecord o1)
    | OutOfFuel => w' = w1
    end.
Proof.
  revert o w. induction fuel as [|fuel IH]; intros o w.
  - rewrite parse_loop_O. intros [= <- <-].
    exists [], o, w. split; [constructor|done].
  - rewrite parse_loop_S. case_bool_decide as Hlt.
    + destruct (DIE_new (self w) (stream (dwarfinfo (self w))) o)
        as [e|die] eqn:Hdec.
      * intros [= <- <-]. exists [], o, w. split; [constructor|done].
      * intros Hrun. destruct (IH _ _ Hrun) as (l & o1 & w1 & Hwalk & Hr).
        exists (die :: l), o1, w1. split; [by econstructor|done].
    + intros [= <- <-]. exists [], o, w.
      split; [constructor|]. split; [lia|done].
Qed.

(** More fuel does not change a run that ended. *)
Lemma parse_loop_fuel_mono (fuel fuel' : nat) (b o : Z) (w w' : Wd)
    (r : outcome unit) :
  parse_loop size DIE_new fuel b o w = (r, w') →
  r ≠ OutOfFuel → (fuel ≤ fuel')%nat →
  parse_loop size DIE_new fuel' b o w = (r, w').
Proof.
  revert fuel' o w. induction fuel as [|fuel IH]; intros fuel' o w.
  - rewrite parse_loop_O. intros [= <- <-]. done.
  - intros Hrun Hr Hle. destruct fuel' as [|fuel']; [lia|].
    rewrite parse_loop_S in *. case_bool_decide; [|done].
    destruct (DIE_new (self w) (stream (dwarfinfo (self w))) o); [done|].
    apply IH; [done|done|lia].
Qed.

Lemma parse_DIEs_fuel_mono (fuel fuel' : nat) (w w' : Wd)
    (r : outcome unit) :
  _parse_DIEs size DIE_new fuel w = (r, w') →
  r ≠ OutOfFuel → (fuel ≤ fuel')%nat →
  _parse_DIEs size DIE_new fuel' w = (r, w').
Proof.
  rewrite !parse_DIEs_run.
  destruct (header (self w) !! "unit_length"); [|done].
  apply parse_loop_fuel_mono.
Qed.

(** With sizes that are positive below the boundary, the distance to the
    boundary bounds the number of turns. *)
Lemma parse_loop_terminates (di : DWARFInfo Stream AbbrevTable) (top b : Z) :
  (∀ cu' o die, top ≤ o < b →
     DIE_new cu' (stream di) o = inr die → 0 < size die) →
  ∀ (fuel : nat) (o : Z) (w : Wd),
    dwarfinfo (self w) = di → top ≤ o →
    (Z.to_nat (b - o) < fuel)%nat →
    fst (parse_loop size DIE_new fuel b o w) ≠ OutOfFuel.
Proof.
  intros Hpos. induction fuel as [|fuel IH]; intros o w Hdi Hto Hfuel;
    [lia|].
  rewrite parse_loop_S. case_bool_decide as Hlt; [|done].
  destruct (DIE_new (self w) (stream (dwarfinfo (self w))) o)
    as [e|die] eqn:Hdec; [done|].
  rewrite Hdi in Hdec. pose proof (Hpos _ _ _ (conj Hto Hlt) Hdec).
  apply IH; [done|lia|lia].
Qed.

(** The loop rebinds nothing but [_dielist]. *)
Lemma parse_loop_frame (fuel : nat) (b o : Z) (w : Wd) :
  same_but_dielist (self w) (self (snd (parse_loop size DIE_new fuel b o w))).
Proof.
  destruct (parse_loop size DIE_new fuel b o w) as [r w'] eqn:Hrun.
  destruct (parse_loop_walk _ _ _ _ _ _ Hrun) as (l & o1 & w1 & Hwalk & Hr).
  destruct (walk_facts _ _ _ _ _ _ Hwalk) as (_ & Hself & _). simpl.
  assert (self w' = self w1) as ->.
  { destruct r as [[]|e|]; [by destruct Hr as [_ ->]
                           |by destruct Hr as (_ & _ & ->)|by subst]. }
  rewrite Hself. by repeat split.
Qed.

(** Under the decoder's contract a walk that starts inside the unit never
    steps over the boundary. *)
Lemma walk_within (cu : CU) (b o o' : Z) (w w' : Wd) (l : list DIE) :
  decoder_contract size DIE_new cu b →
  walk size DIE_new b o w l o' w' →
  dwarfinfo (self w) = dwarfinfo cu → cu_die_offset cu ≤ o → o ≤ b →
  (∀ die, die ∈ l → 0 < size die) ∧
  (∀ i : nat, o + sizes_sum size (take i l) ≤ b).
Proof.
  intros Hc. induction 1 as [o w|o w die l o' w' Hlt Hdec Hwalk IH];
    intros Hdi Htop Hob.
  - split; [by intros die Hin%elem_of_nil|].
    intros i. rewrite take_nil. simpl. lia.
  - rewrite Hdi in Hdec.
    destruct (Hc _ _ _ (conj Htop Hlt) Hdec) as [Hpos Hin].
    destruct IH as [Hall Htake]; [done|lia|lia|].
    split; [intros d' [->|Hd']%elem_of_cons; auto|].
    intros [|i]; simpl; [lia|]. specialize (Htake i). lia.
Qed.

(** ** Materialization *)

(** C1: a unit with [unit_length = 40], a 4-byte initial length, header at
    offset 0 and top DIE at offset 11, whose decoder reports records of
    sizes 5, 20 and 8 at offsets 11, 16 and 36, has boundary
    [0 + 40 + 4 = 44]; [_parse_DIEs] returns without error and leaves
    exactly these three records, decoded in that order of offsets. *)
Theorem scenario_three_records (cu : CU) (cs : list call) (d1 d2 d3 : DIE) :
  header cu !! "unit_length" = Some 40 →
  initial_length_field_size (structs cu) = 4 →
  cu_offset cu = 0 →
  cu_die_offset cu = 11 →
  _dielist cu = [] →
  (∀ cu', DIE_new cu' (stream (dwarfinfo cu)) 11 = inr d1) →
  size d1 = 5 →
  (∀ cu', DIE_new cu' (stream (dwarfinfo cu)) 16 = inr d2) →
  size d2 = 20 →
  (∀ cu', DIE_new cu' (stream (dwarfinfo cu)) 36 = inr d3) →
  size d3 = 8 →
  cu_boundary {| self := cu; calls := cs |}
    = (Return 44, {| self := cu; calls := cs |}) ∧
  ∀ fuel, (4 ≤ fuel)%nat →
    _parse_DIEs size DIE_new fuel {| self := cu; calls := cs |}
    = (Return tt,
       {| self := with_dielist cu [d1; d2; d3];
          calls := cs ++ [ParseDIEs; DecodeRecord 11; DecodeRecord 16;
                          DecodeRecord 36] |}).
Proof.
  intros Hul Hil Hoff Htop Hnil H1 Hs1 H2 Hs2 H3 Hs3.
  assert (boundary_of cu 40 = 44) as Hb
    by (unfold boundary_of; rewrite Hil, Hoff; reflexivity).
  split.
  - rewrite cu_boundary_run. simpl. by rewrite Hul, Hb.
  - intros fuel Hfuel. rewrite parse_DIEs_run. simpl. rewrite Hul.
    apply parse_loop_fuel_mono with (fuel := 4%nat); [|done|done].
    rewrite Hb, Htop.
    rewrite parse_loop_S, bool_decide_eq_true_2 by lia.
    cbn [self logged after_decode dwarfinfo with_dielist].
    rewrite H1, Hs1.
    rewrite parse_loop_S, bool_decide_eq_true_2 by lia.
    cbn [self logged after_decode dwarfinfo with_dielist].
    rewrite H2, Hs2.
    rewrite parse_loop_S, bool_decide_eq_true_2 by lia.
    cbn [self logged after_decode dwarfinfo with_dielist].
    rewrite H3, Hs3.
    rewrite parse_loop_S, bool_decide_eq_false_2 by lia.
    unfold after_decode, logged, with_dielist. simpl.
    rewrite Hnil, <- !app_assoc. reflexivity.
Qed.

(** C5: when [_parse_DIEs] returns on a well-formed unit (the top DIE is
    not past the boundary and the decoder keeps its contract), the list
    tiles the unit: record [i] is the one the constructor returned at
    offset [cu_die_offset + (sizes of records 0..i-1)], it has a positive
    size and ends inside the unit, and the sizes of all the records add up
    to [cu_boundary - cu_die_offset]. *)
Theorem dielist_tiles_unit (fuel : nat) (w w' : Wd) (unit_length : Z) :
  _dielist (self w) = [] →
  header (self w) !! "unit_length" = Some unit_length →
  cu_die_offset (self w) ≤ boundary_of (self w) unit_length →
  decoder_contract size DIE_new (self w) (boundary_of (self w) unit_length) →
  _parse_DIEs size DIE_new fuel w = (Return tt, w') →
  (∀ (i : nat) (die : DIE),
     _dielist (self w') !! i = Some die →
     DIE_new (with_dielist (self w) (take i (_dielist (self w'))))
       (stream (dwarfinfo (self w)))
       (cu_die_offset (self w)
        + sizes_sum size (take i (_dielist (self w'))))
     = inr die ∧
     0 < size die ∧
     cu_die_offset (self w)
     + sizes_sum size (take (S i) (_dielist (self w')))
     ≤ boundary_of (self w) unit_length) ∧
  sizes_sum size (_dielist (self w'))
  = boundary_of (self w) unit_length - cu_die_offset (self w) ∧
  calls w' = calls w ++ ParseDIEs ::
    (DecodeRecord <$> offsets size (cu_die_offset (self w))
                        (_dielist (self w'))).
Proof.
  intros Hnil Hul Hext Hc. rewrite parse_DIEs_run, Hul. intros Hrun.
  destruct (parse_loop_walk _ _ _ _ _ _ Hrun)
    as (l & o1 & w1 & Hwalk & Hge & ->).
  destruct (walk_facts _ _ _ _ _ _ Hwalk) as (Ho1 & Hself & Hcalls).
  destruct (walk_within _ _ _ _ _ _ _ Hc Hwalk) as [Hpos Htake];
    [done|simpl; lia|done|].
  simpl in *. rewrite Hnil in Hself. simpl in Hself.
  rewrite Hself, Hcalls. simpl. split_and!.
  - intros i die Hi.
    destruct (walk_lookup _ _ _ _ _ _ Hwalk i die Hi) as [Hlt Hdec].
    simpl in Hdec. rewrite Hnil in Hdec. simpl in Hdec.
    split_and!; [done|by eapply Hpos, list_elem_of_lookup_2|apply Htake].
  - pose proof (Htake (length l)) as Hall.
    rewrite firstn_all in Hall. lia.
  - by rewrite <- app_assoc.
Qed.

(** C6: with a decoder that keeps its contract, [_parse_DIEs] terminates:
    from some amount of fuel on, every run ends the same way, by returning
    or by raising, in one final world; nothing is handed out before. *)
Theorem parse_DIEs_terminates (w : Wd) :
  (∀ unit_length,
     header (self w) !! "unit_length" = Some unit_length →
     decoder_contract size DIE_new (self w)
       (boundary_of (self w) unit_length)) →
  ∃ (n : nat) (r : outcome unit) (w' : Wd),
    r ≠ OutOfFuel ∧
    ∀ fuel, (n ≤ fuel)%nat → _parse_DIEs size DIE_new fuel w = (r, w').
Proof.
  intros Hc.
  destruct (header (self w) !! "unit_length") as [ul|] eqn:Hul.
  - specialize (Hc ul eq_refl).
    set (b := boundary_of (self w) ul) in *.
    set (n := S (Z.to_nat (b - cu_die_offset (self w)))).
    destruct (_parse_DIEs size DIE_new n w) as [r w'] eqn:Hrun.
    assert (r ≠ OutOfFuel) as Hr.
    { rewrite parse_DIEs_run, Hul in Hrun.
      pose proof (parse_loop_terminates (dwarfinfo (self w))
                    (cu_die_offset (self w)) b) as Hterm.
      change r with (fst (r, w')). rewrite <- Hrun.
      apply Hterm; [|done|simpl; lia|unfold n; simpl; lia].
      intros cu' o die Ho Hdec. by destruct (Hc cu' o die Ho Hdec). }
    exists n, r, w'. split; [done|].
    intros fuel Hfuel. by eapply parse_DIEs_fuel_mono.
  - exists 0%nat, (Raise (KeyError "unit_length")), (logged w ParseDIEs).
    split; [done|]. intros fuel _. by rewrite parse_DIEs_run, Hul.
Qed.

Lemma parse_DIEs_empty_extent (fuel : nat) (w : Wd) (unit_length : Z) :
  header (self w) !! "unit_length" = Some unit_length →
  boundary_of (self w) unit_length ≤ cu_die_offset (self w) →
  _parse_DIEs size DIE_new (S fuel) w = (Return tt, logged w ParseDIEs).
Proof.
  intros Hul Hle. rewrite parse_DIEs_run, Hul.
  rewrite parse_loop_S, bool_decide_eq_false_2; [done|simpl; lia].
Qed.

(** C7, as the code has it: when the boundary is not past the top DIE,
    [_parse_DIEs] raises nothing; it returns at the first test of the loop
    condition, having called no constructor and appended no record. *)
Theorem nonpositive_extent_returns (fuel : nat) (w : Wd) (unit_length : Z) :
  header (self w) !! "unit_length" = Some unit_length →
  boundary_of (self w) unit_length ≤ cu_die_offset (self w) →
  (1 ≤ fuel)%nat →
  _parse_DIEs size DIE_new fuel w = (Return tt, logged w ParseDIEs).
Proof.
  intros Hul Hle Hfuel. destruct fuel as [|fuel]; [lia|].
  by eapply parse_DIEs_empty_extent.
Qed.

Lemma parse_DIEs_same_but_dielist (fuel : nat) (w : Wd) :
  same_but_dielist (self w) (self (snd (_parse_DIEs size DIE_new fuel w))).
Proof.
  rewrite parse_DIEs_run.
  destruct (header (self w) !! "unit_length") as [ul|]; [|done].
  apply (parse_loop_frame fuel (boundary_of (self w) ul)
           (cu_die_offset (self w)) (logged w ParseDIEs)).
Qed.

(** A record whose reported size is zero stalls the cursor: the loop
    calls the constructor at the same offset for as long as it runs. *)
Lemma parse_loop_stalls (s : Stream) (b o : Z) (die : DIE) :
  o < b → (∀ cu', DIE_new cu' s o = inr die) → size die = 0 →
  ∀ (fuel : nat) (w : Wd),
    stream (dwarfinfo (self w)) = s →
    fst (parse_loop size DIE_new fuel b o w) = OutOfFuel.
Proof.
  intros Hlt Hdec Hz. induction fuel as [|fuel IH]; intros w Hs; [done|].
  rewrite parse_loop_S, bool_decide_eq_true_2, Hs, Hdec, Hz, Z.add_0_r
    by done.
  by apply IH.
Qed.

(** C2, as the code has it: the size a record reports is not checked.
    Below the boundary the record is appended and the cursor moves by its
    size, whatever the size; if that takes the cursor to or past the
    boundary the loop returns without error, and if the size is zero the
    loop never ends. *)
Theorem parse_loop_size_unchecked (fuel : nat) (b o : Z) (w : Wd)
    (die : DIE) :
  o < b →
  (∀ cu', DIE_new cu' (stream (dwarfinfo (self w))) o = inr die) →
  parse_loop size DIE_new (S fuel) b o w
  = parse_loop size DIE_new fuel b (o + size die) (after_decode w o die) ∧
  (b ≤ o + size die →
   parse_loop size DIE_new (S (S fuel)) b o w
   = (Return tt, after_decode w o die)) ∧
  (size die = 0 →
   ∀ fuel', fst (parse_loop size DIE_new fuel' b o w) = OutOfFuel).
Proof.
  intros Hlt Hdec.
  assert (∀ n, parse_loop size DIE_new (S n) b o w
               = parse_loop size DIE_new n b (o + size die)
                   (after_decode w o die))
    as Hstep.
  { intros n. by rewrite parse_loop_S, bool_decide_eq_true_2, Hdec. }
  split_and!; [done| |].
  - intros Hge. by rewrite Hstep, parse_loop_S, bool_decide_eq_false_2 by lia.
  - intros Hz fuel'. by eapply parse_loop_stalls.
Qed.

(** What [_parse_DIEs] raises is the [KeyError] of a header without
    [unit_length], or what the constructor raised. *)
Lemma parse_DIEs_raise_origin (fuel : nat) (w w' : Wd) (e : exn) :
  _parse_DIEs size DIE_new fuel w = (Raise e, w') →
  (header (self w) !! "unit_length" = None ∧ e = KeyError "unit_length") ∨
  (∃ cu' o, DIE_new cu' (stream (dwarfinfo (self w))) o = inl e).
Proof.
  rewrite parse_DIEs_run.
  destruct (header (self w) !! "unit_length") as [ul|].
  - intros Hrun. right.
    destruct (parse_loop_walk _ _ _ _ _ _ Hrun)
      as (l & o1 & w1 & Hwalk & _ & Hdec & _).
    destruct (walk_facts _ _ _ _ _ _ Hwalk) as (_ & Hself & _).
    rewrite Hself in Hdec. simpl in Hdec. eauto.
  - intros [= <- <-]. by left.
Qed.

(** ** Memoization and indexed access *)

Lemma get_abbrev_table_run (w : Wd) :
  get_abbrev_table w =
  match _abbrev_table (self w) with
  | Some t => (Return t, w)
  | None =>
      match header (self w) !! "debug_abbrev_offset" with
      | None => (Raise (KeyError "debug_abbrev_offset"), w)
      | Some off =>
          match DWARFInfo_get_abbrev_table (dwarfinfo (self w)) off with
          | inl e => (Raise e, logged w (ResolveSchema off))
          | inr t => (Return t,
                      {| self := with_abbrev_table (self w) t;
                         calls := calls w ++ [ResolveSchema off] |})
          end
      end
  end.
Proof.
  unfold get_abbrev_table. run_M.
  destruct (_abbrev_table (self w)); [done|].
  rewrite getitem_run.
  destruct (header (self w) !! "debug_abbrev_offset") as [off|]; [|done].
  by destruct (DWARFInfo_get_abbrev_table (dwarfinfo (self w)) off).
Qed.

(** The calls a run of [_parse_DIEs] makes: its own entry, then
    constructor calls. *)
Lemma parse_DIEs_calls (fuel : nat) (w : Wd) :
  ∃ offs, calls (snd (_parse_DIEs size DIE_new fuel w))
          = calls w ++ ParseDIEs :: (DecodeRecord <$> offs).
Proof.
  rewrite parse_DIEs_run.
  destruct (header (self w) !! "unit_length") as [ul|]; [|by exists []].
  destruct (parse_loop size DIE_new fuel (boundary_of (self w) ul)
              (cu_die_offset (self w)) (logged w ParseDIEs))
    as [r w'] eqn:Hrun.
  destruct (parse_loop_walk _ _ _ _ _ _ Hrun) as (l & o1 & w1 & Hwalk & Hr).
  destruct (walk_facts _ _ _ _ _ _ Hwalk) as (_ & _ & Hcalls).
  simpl in *.
  destruct r as [[]|e|].
  - destruct Hr as [_ ->]. rewrite Hcalls, <- app_assoc. eauto.
  - destruct Hr as (_ & _ & ->). simpl. rewrite Hcalls, <- !app_assoc.
    exists (offsets size (cu_die_offset (self w)) l ++ [o1]).
    by rewrite fmap_app.
  - subst. rewrite Hcalls, <- app_assoc. eauto.
Qed.

(** An indexed access neither rebinds [_abbrev_table] nor calls the
    resolver. *)
Lemma get_DIE_keeps_schema (fuel : nat) (index : Z) (w : Wd) :
  _abbrev_table (self (snd (_get_DIE size DIE_new fuel index w)))
  = _abbrev_table (self w) ∧
  count_calls is_ResolveSchema
    (calls (snd (_get_DIE size DIE_new fuel index w)))
  = count_calls is_ResolveSchema (calls w).
Proof.
  assert (∀ (l : list DIE) (w1 : Wd),
            snd (lift (list_getitem l index) w1) = w1) as Hlift.
  { intros l w1. by destruct (list_getitem l index). }
  rewrite get_DIE_run. case_bool_decide; [|by rewrite Hlift].
  pose proof (parse_DIEs_same_but_dielist fuel w) as (_ & _ & _ & _ & _ & Hab).
  destruct (parse_DIEs_calls fuel w) as [offs Hcalls].
  assert (snd (match _parse_DIEs size DIE_new fuel w with
               | (Return _, w') =>
                   lift (list_getitem (_dielist (self w')) index) w'
               | (Raise e, w') => (Raise e, w')
               | (OutOfFuel, w') => (OutOfFuel, w')
               end) = snd (_parse_DIEs size DIE_new fuel w)) as ->.
  { destruct (_parse_DIEs size DIE_new fuel w) as [[[]|e|] w'];
      [apply Hlift|done|done]. }
  rewrite Hab, Hcalls, count_calls_app. split; [done|].
  change (ParseDIEs :: (DecodeRecord <$> offs))
    with ([ParseDIEs] ++ (DecodeRecord <$> offs)).
  rewrite count_calls_app, count_calls_decodes, count_calls_singleton
    by done.
  simpl. lia.
Qed.

Lemma get_abbrev_table_keeps_dielist (w : Wd) :
  _dielist (self (snd (get_abbrev_table w))) = _dielist (self w) ∧
  count_calls is_ParseDIEs (calls (snd (get_abbrev_table w)))
  = count_calls is_ParseDIEs (calls w).
Proof.
  rewrite get_abbrev_table_run.
  destruct (_abbrev_table (self w)); [done|].
  destruct (header (self w) !! "debug_abbrev_offset") as [off|]; [|done].
  destruct (DWARFInfo_get_abbrev_table (dwarfinfo (self w)) off); simpl;
    rewrite count_calls_app, count_calls_singleton; simpl;
    (split; [done|lia]).
Qed.

Lemma get_DIE_populated (fuel : nat) (index : Z) (w : Wd) :
  _dielist (self w) ≠ [] →
  _get_DIE size DIE_new fuel index w
  = lift (list_getitem (_dielist (self w)) index) w ∧
  snd (_get_DIE size DIE_new fuel index w) = w.
Proof.
  intros Hne. rewrite get_DIE_run, bool_decide_eq_false_2
    by (by destruct (_dielist (self w))).
  split; [done|]. by destruct (list_getitem (_dielist (self w)) index).
Qed.

(** On an empty list every indexed access enters [_parse_DIEs]. *)
Lemma get_DIE_empty_parses (fuel : nat) (index : Z) (w : Wd) :
  _dielist (self w) = [] →
  count_calls is_ParseDIEs
    (calls (snd (_get_DIE size DIE_new fuel index w)))
  = S (count_calls is_ParseDIEs (calls w)).
Proof.
  intros Hnil. rewrite get_DIE_run, Hnil, bool_decide_eq_true_2 by done.
  destruct (parse_DIEs_calls fuel w) as [offs Hcalls].
  assert (snd (match _parse_DIEs size DIE_new fuel w with
               | (Return _, w') =>
                   lift (list_getitem (_dielist (self w')) index) w'
               | (Raise e, w') => (Raise e, w')
               | (OutOfFuel, w') => (OutOfFuel, w')
               end) = snd (_parse_DIEs size DIE_new fuel w)) as ->.
  { destruct (_parse_DIEs size DIE_new fuel w) as [[[]|e|] w']; [|done|done].
    by destruct (list_getitem (_dielist (self w')) index). }
  rewrite Hcalls.
  change (ParseDIEs :: (DecodeRecord <$> offs))
    with ([ParseDIEs] ++ (DecodeRecord <$> offs)).
  rewrite !count_calls_app, count_calls_decodes, count_calls_singleton
    by done.
  simpl. lia.
Qed.

(** C4, as the code has it.  The abbreviation table: a first call of
    [get_abbrev_table] that returns has asked the resolver once; from then
    on the call returns the same table without asking, and indexed access
    does not touch it.  The DIE list: after a [_parse_DIEs] that returned
    with at least one record, every indexed access answers from that list,
    as the first one did, and changes nothing: no further parse, no
    constructor call; [get_abbrev_table] does not touch the list either.
    (A list left empty is another matter: [get_DIE_empty_parses].) *)
Theorem memoized_fields_once (wa wa' wb wb' : Wd) (t : AbbrevTable)
    (fuel0 : nat) :
  _abbrev_table (self wa) = None →
  get_abbrev_table wa = (Return t, wa') →
  _dielist (self wb) = [] →
  _parse_DIEs size DIE_new fuel0 wb = (Return tt, wb') →
  _dielist (self wb') ≠ [] →
  (count_calls is_ResolveSchema (calls wa')
   = S (count_calls is_ResolveSchema (calls wa)) ∧
   get_abbrev_table wa' = (Return t, wa') ∧
   ∀ fuel index,
     _abbrev_table (self (snd (_get_DIE size DIE_new fuel index wa')))
     = Some t ∧
     count_calls is_ResolveSchema
       (calls (snd (_get_DIE size DIE_new fuel index wa')))
     = count_calls is_ResolveSchema (calls wa')) ∧
  (count_calls is_ParseDIEs (calls wb')
   = S (count_calls is_ParseDIEs (calls wb)) ∧
   (∀ fuel index,
      _get_DIE size DIE_new fuel index wb'
      = _get_DIE size DIE_new fuel0 index wb ∧
      snd (_get_DIE size DIE_new fuel index wb') = wb') ∧
   _dielist (self (snd (get_abbrev_table wb'))) = _dielist (self wb') ∧
   count_calls is_ParseDIEs (calls (snd (get_abbrev_table wb')))
   = count_calls is_ParseDIEs (calls wb')).
Proof.
  intros Hnone Hschema Hnil Hparse Hne. split.
  - rewrite get_abbrev_table_run, Hnone in Hschema.
    destruct (header (self wa) !! "debug_abbrev_offset") as [off|];
      [|done].
    destruct (DWARFInfo_get_abbrev_table (dwarfinfo (self wa)) off)
      as [e|t']; [done|].
    injection Hschema as -> <-. split_and!.
    + simpl. rewrite count_calls_app, count_calls_singleton. simpl. lia.
    + by rewrite get_abbrev_table_run.
    + intros fuel index.
      destruct (get_DIE_keeps_schema fuel index
                  {| self := with_abbrev_table (self wa) t;
                     calls := calls wa ++ [ResolveSchema off] |})
        as [-> ->].
      done.
  - split_and!.
    + destruct (parse_DIEs_calls fuel0 wb) as [offs Hcalls].
      rewrite Hparse in Hcalls. simpl in Hcalls. rewrite Hcalls.
      change (ParseDIEs :: (DecodeRecord <$> offs))
        with ([ParseDIEs] ++ (DecodeRecord <$> offs)).
      rewrite !count_calls_app, count_calls_decodes, count_calls_singleton
        by done.
      simpl. lia.
    + intros fuel index.
      destruct (get_DIE_populated fuel index wb' Hne) as [Hget Hsnd].
      split; [|done]. rewrite Hget.
      by rewrite (get_DIE_run fuel0 index wb), Hnil, Hparse.
    + apply get_abbrev_table_keeps_dielist.
    + apply get_abbrev_table_keeps_dielist.
Qed.

(** What a parse that returned with an empty list tells: the header has
    [unit_length], the boundary is not past the top DIE, and the unit is
    as it was. *)
Lemma parse_DIEs_returned_empty (fuel : nat) (w w' : Wd) :
  _dielist (self w) = [] →
  _parse_DIEs size DIE_new fuel w = (Return tt, w') →
  _dielist (self w') = [] →
  ∃ ul, header (self w') !! "unit_length" = Some ul ∧
        boundary_of (self w') ul ≤ cu_die_offset (self w').
Proof.
  intros Hnil Hrun Hnil'. rewrite parse_DIEs_run in Hrun.
  destruct (header (self w) !! "unit_length") as [ul|] eqn:Hul; [|done].
  destruct (parse_loop_walk _ _ _ _ _ _ Hrun)
    as (l & o1 & w1 & Hwalk & Hge & ->).
  destruct (walk_facts _ _ _ _ _ _ Hwalk) as (Ho1 & Hself & _).
  simpl in Hself. rewrite Hnil in Hself. simpl in Hself.
  rewrite Hself in Hnil'. simpl in Hnil'. subst l. simpl in Ho1.
  rewrite Hself. exists ul. simpl. split; [done|].
  unfold boundary_of in *. simpl. lia.
Qed.

(** C8, as the code has it: on a unit whose list was materialized by a
    [_parse_DIEs] that returned, with [L] records, an index [i >= L] or
    [i < -L] raises [IndexError]; an index in [0, L) returns record [i];
    a negative index [-L <= i < 0] counts from the end and returns
    record [L + i]; and with [L > 0] index 0 returns. *)
Theorem get_DIE_index_bounds (fuel0 fuel : nat) (w0 w : Wd) (index : Z) :
  _dielist (self w0) = [] →
  _parse_DIEs size DIE_new fuel0 w0 = (Return tt, w) →
  (1 ≤ fuel)%nat →
  (index < - Z.of_nat (length (_dielist (self w))) ∨
   Z.of_nat (length (_dielist (self w))) ≤ index →
   fst (_get_DIE size DIE_new fuel index w) = Raise IndexError) ∧
  (0 ≤ index < Z.of_nat (length (_dielist (self w))) →
   ∃ die, _dielist (self w) !! Z.to_nat index = Some die ∧
          _get_DIE size DIE_new fuel index w = (Return die, w)) ∧
  (- Z.of_nat (length (_dielist (self w))) ≤ index < 0 →
   ∃ die, _dielist (self w)
            !! Z.to_nat (Z.of_nat (length (_dielist (self w))) + index)
          = Some die ∧
          _get_DIE size DIE_new fuel index w = (Return die, w)) ∧
  (0 < Z.of_nat (length (_dielist (self w))) →
   ∃ die, _get_DIE size DIE_new fuel 0 w = (Return die, w)).
Proof.
  intros Hnil Hrun Hfuel.
  destruct (_dielist (self w)) as [|d l] eqn:Hl.
  - simpl. split_and!; try (intros; lia). intros _.
    destruct (parse_DIEs_returned_empty _ _ _ Hnil Hrun Hl)
      as (ul & Hul & Hle).
    destruct fuel as [|fuel]; [lia|].
    rewrite get_DIE_run, Hl, bool_decide_eq_true_2 by done.
    rewrite (parse_DIEs_empty_extent fuel w ul Hul Hle). simpl.
    rewrite Hl, list_getitem_out_of_range by (simpl; lia). done.
  - assert (_dielist (self w) ≠ []) as Hne by by rewrite Hl.
    assert (∀ i, _get_DIE size DIE_new fuel i w
                 = lift (list_getitem (d :: l) i) w) as Hget.
    { intros i. rewrite <- Hl. by apply get_DIE_populated. }
    split_and!.
    + intros Hout. by rewrite Hget, list_getitem_out_of_range.
    + intros Hin. destruct (list_getitem_nonneg (d :: l) index Hin)
        as (x & Hx & Hg).
      exists x. by rewrite Hget, Hg.
    + intros Hin. destruct (list_getitem_negative (d :: l) index Hin)
        as (x & Hx & Hg).
      exists x. by rewrite Hget, Hg.
    + intros _. exists d. by rewrite Hget.
Qed.

(** ** Header access *)

(** C9: [cu[name]] returns the header's value for [name] when the header
    has the key, and raises [KeyError] when it has not; no default value
    stands in, and the unit is left as it was. *)
Theorem getitem_header_lookup (name : string) (w : Wd) :
  (∀ v, header (self w) !! name = Some v →
        __getitem__ name w = (Return v, w)) ∧
  (header (self w) !! name = None →
   __getitem__ name w = (Raise (KeyError name), w)).
Proof. rewrite getitem_run. split; [intros v ->|intros ->]; done. Qed.

(** ** The abbreviation table: failures, value, frame *)

(** X1: a [get_abbrev_table] that raises has cached nothing.  Either the
    header has no [debug_abbrev_offset], the error is that [KeyError] and
    the resolver was not called; or the resolver was called at the header's
    offset and the error is the one it raised.  The unit is as it was, and
    the next call fails the same way. *)
Theorem get_abbrev_table_failure_not_cached (w w' : Wd) (e : exn) :
  get_abbrev_table w = (Raise e, w') →
  self w' = self w ∧
  _abbrev_table (self w') = None ∧
  ((header (self w) !! "debug_abbrev_offset" = None ∧
    e = KeyError "debug_abbrev_offset" ∧ calls w' = calls w) ∨
   (∃ off, header (self w) !! "debug_abbrev_offset" = Some off ∧
           DWARFInfo_get_abbrev_table (dwarfinfo (self w)) off = inl e ∧
           calls w' = calls w ++ [ResolveSchema off])) ∧
  fst (get_abbrev_table w') = Raise e.
Proof.
  rewrite get_abbrev_table_run.
  destruct (_abbrev_table (self w)) as [t|] eqn:Hab; [done|].
  destruct (header (self w) !! "debug_abbrev_offset") as [off|] eqn:Hoff.
  - destruct (DWARFInfo_get_abbrev_table (dwarfinfo (self w)) off)
      as [e'|t] eqn:Hres; [|done].
    intros [= <- <-]. simpl. split_and!; [done|done|right; eauto|].
    rewrite get_abbrev_table_run. simpl. by rewrite Hab, Hoff, Hres.
  - intros [= <- <-]. split_and!; [done|done|left; done|].
    by rewrite get_abbrev_table_run, Hab, Hoff.
Qed.

(** X2: the table [get_abbrev_table] returns is then the cached one, and
    it is either the table that was cached before the call, the unit being
    left alone, or, nothing being cached, the table the owning context
    resolves at the header's [debug_abbrev_offset], asked once. *)
Theorem get_abbrev_table_returns_resolved (w w' : Wd) (t : AbbrevTable) :
  get_abbrev_table w = (Return t, w') →
  _abbrev_table (self w') = Some t ∧
  ((_abbrev_table (self w) = Some t ∧ w' = w) ∨
   (_abbrev_table (self w) = None ∧
    ∃ off, header (self w) !! "debug_abbrev_offset" = Some off ∧
           DWARFInfo_get_abbrev_table (dwarfinfo (self w)) off = inr t ∧
           self w' = with_abbrev_table (self w) t ∧
           calls w' = calls w ++ [ResolveSchema off])).
Proof.
  rewrite get_abbrev_table_run.
  destruct (_abbrev_table (self w)) as [t0|] eqn:Hab.
  - intros [= <- <-]. split; [done|]. by left.
  - destruct (header (self w) !! "debug_abbrev_offset") as [off|] eqn:Hoff;
      [|done].
    destruct (DWARFInfo_get_abbrev_table (dwarfinfo (self w)) off)
      as [e|t'] eqn:Hres; [done|].
    intros [= <- <-]. simpl. split; [done|]. right. split; [done|].
    exists off. done.
Qed.

(** X3: whatever way [get_abbrev_table] ends, it leaves [dwarfinfo],
    [header], [structs], [cu_offset], [cu_die_offset] and [_dielist] as
    they were, and it never replaces a table that is cached. *)
Theorem get_abbrev_table_frame (w : Wd) :
  let cu := self w in
  let cu' := self (snd (get_abbrev_table w)) in
  dwarfinfo cu' = dwarfinfo cu ∧
  header cu' = header cu ∧
  structs cu' = structs cu ∧
  cu_offset cu' = cu_offset cu ∧
  cu_die_offset cu' = cu_die_offset cu ∧
  _dielist cu' = _dielist cu ∧
  (∀ t, _abbrev_table cu = Some t → _abbrev_table cu' = Some t).
Proof.
  intros cu cu'. subst cu cu'. rewrite get_abbrev_table_run.
  destruct (_abbrev_table (self w)) as [t0|] eqn:Hab;
    [simpl; by rewrite Hab|].
  destruct (header (self w) !! "debug_abbrev_offset") as [off|];
    [|simpl; by rewrite Hab].
  destruct (DWARFInfo_get_abbrev_table (dwarfinfo (self w)) off);
    simpl; [by rewrite Hab|].
  by repeat split.
Qed.

(** ** Indexed access, from the first call on *)

Lemma list_getitem_inr {A : Type} (l : list A) (index : Z) (x : A) :
  list_getitem l index = inr x →
  ∃ i : nat,
    l !! i = Some x ∧
    Z.of_nat i = (if bool_decide (index < 0)
                  then index + Z.of_nat (length l) else index).
Proof.
  unfold list_getitem. case_bool_decide as Hrange; [done|].
  destruct (l !! Z.to_nat _) as [y|] eqn:Hy; [|done].
  intros [= ->]. eexists. split; [exact Hy|]. lia.
Qed.

Lemma get_DIE_returned (fuel : nat) (index : Z) (w w' : Wd) (d : DIE) :
  _dielist (self w) = [] →
  _get_DIE size DIE_new fuel index w = (Return d, w') →
  _parse_DIEs size DIE_new fuel w = (Return tt, w') ∧
  list_getitem (_dielist (self w')) index = inr d.
Proof.
  intros Hnil. rewrite get_DIE_run, Hnil, bool_decide_eq_true_2 by done.
  destruct (_parse_DIEs size DIE_new fuel w) as [[[]|e|] w1]; [|done|done].
  unfold lift.
  destruct (list_getitem (_dielist (self w1)) index) as [e|d'] eqn:Hget;
    [done|].
  intros [= -> ->]. done.
Qed.

Lemma parse_DIEs_returned (fuel : nat) (w w' : Wd) :
  _parse_DIEs size DIE_new fuel w = (Return tt, w') →
  ∃ ul l o1,
    header (self w) !! "unit_length" = Some ul ∧
    walk size DIE_new (boundary_of (self w) ul) (cu_die_offset (self w))
      (logged w ParseDIEs) l o1 w' ∧
    boundary_of (self w) ul ≤ o1.
Proof.
  rewrite parse_DIEs_run.
  destruct (header (self w) !! "unit_length") as [ul|]; [|done].
  intros Hrun.
  destruct (parse_loop_walk _ _ _ _ _ _ Hrun)
    as (l & o1 & w1 & Hwalk & Hge & ->).
  by exists ul, l, o1.
Qed.

(** X4: when [get_top_DIE] returns on a unit fresh from [__init__], the
    header has [unit_length], the top DIE's offset is below the boundary
    [cu_offset + unit_length + initial_length_field_size()], and the DIE
    returned is the one the constructor built at [cu_die_offset], handed the
    unit as [__init__] left it. *)
Theorem get_top_DIE_fresh_unit (hdr : gmap string Z)
    (di : DWARFInfo Stream AbbrevTable) (st : DWARFStructs)
    (cu_off cu_die_off : Z) (fuel : nat) (d : DIE) (w' : Wd) :
  get_top_DIE size DIE_new fuel
    {| self := __init__ DIE hdr di st cu_off cu_die_off; calls := [] |}
  = (Return d, w') →
  ∃ unit_length,
    hdr !! "unit_length" = Some unit_length ∧
    cu_die_off < cu_off + unit_length + initial_length_field_size st ∧
    DIE_new (__init__ DIE hdr di st cu_off cu_die_off) (stream di) cu_die_off
    = inr d.
Proof.
  unfold get_top_DIE. intros Hget.
  apply get_DIE_returned in Hget as [Hparse Hidx]; [|done].
  destruct (parse_DIEs_returned _ _ _ Hparse)
    as (ul & l & o1 & Hul & Hwalk & Hge).
  destruct (walk_facts _ _ _ _ _ _ Hwalk) as (_ & Hself & _).
  rewrite Hself in Hidx. simpl in Hidx.
  destruct (list_getitem_inr _ _ _ Hidx) as (i & Hi & Hi0).
  rewrite bool_decide_eq_false_2 in Hi0 by lia.
  assert (i = 0%nat) as -> by lia.
  destruct (walk_lookup _ _ _ _ _ _ Hwalk 0%nat d Hi) as [Hlt Hdec].
  simpl in Hlt, Hdec. exists ul. split; [done|].
  unfold boundary_of in Hlt. simpl in Hlt. split; [lia|].
  by rewrite Z.add_0_r in Hdec.
Qed.

(** X5: on a unit whose list was empty, the DIE an indexed access returns
    for an index [i >= 0] is the DIE the constructor built at offset
    [cu_die_offset + (sizes of the records before it)], handed the unit
    with those records in its list. *)
Theorem get_DIE_returns_decoded (fuel : nat) (index : Z) (w w' : Wd)
    (d : DIE) :
  _dielist (self w) = [] →
  0 ≤ index →
  _get_DIE size DIE_new fuel index w = (Return d, w') →
  DIE_new
    (with_dielist (self w) (take (Z.to_nat index) (_dielist (self w'))))
    (stream (dwarfinfo (self w)))
    (cu_die_offset (self w)
     + sizes_sum size (take (Z.to_nat index) (_dielist (self w'))))
  = inr d.
Proof.
  intros Hnil Hidx0 Hget.
  apply get_DIE_returned in Hget as [Hparse Hidx]; [|done].
  destruct (parse_DIEs_returned _ _ _ Hparse)
    as (ul & l & o1 & Hul & Hwalk & Hge).
  destruct (walk_facts _ _ _ _ _ _ Hwalk) as (_ & Hself & _).
  simpl in Hself. rewrite Hnil in Hself. simpl in Hself.
  rewrite Hself in Hidx |- *. simpl in Hidx |- *.
  destruct (list_getitem_inr _ _ _ Hidx) as (i & Hi & Hi0).
  rewrite bool_decide_eq_false_2 in Hi0 by lia.
  assert (Z.to_nat index = i) as -> by lia.
  destruct (walk_lookup _ _ _ _ _ _ Hwalk i d Hi) as [_ Hdec].
  simpl in Hdec. by rewrite Hnil in Hdec.
Qed.

(** X6: on a unit whose boundary is not past its top DIE, every indexed
    access, [get_top_DIE] included, raises [IndexError]: the parse it
    triggers calls no constructor and leaves the list empty. *)
Theorem get_DIE_empty_extent (fuel : nat) (index : Z) (w : Wd)
    (unit_length : Z) :
  _dielist (self w) = [] →
  header (self w) !! "unit_length" = Some unit_length →
  boundary_of (self w) unit_length ≤ cu_die_offset (self w) →
  (1 ≤ fuel)%nat →
  _get_DIE size DIE_new fuel index w
  = (Raise IndexError, logged w ParseDIEs) ∧
  get_top_DIE size DIE_new fuel w = (Raise IndexError, logged w ParseDIEs).
Proof.
  intros Hnil Hul Hle Hfuel. destruct fuel as [|fuel]; [lia|].
  assert (∀ i, _get_DIE size DIE_new (S fuel) i w
               = (Raise IndexError, logged w ParseDIEs)) as Hall.
  { intros i. rewrite get_DIE_run, Hnil, bool_decide_eq_true_2 by done.
    rewrite (parse_DIEs_empty_extent fuel w unit_length Hul Hle). simpl.
    by rewrite Hnil, list_getitem_out_of_range by (simpl; lia). }
  split; [apply Hall|apply (Hall 0)].
Qed.

(** X7: on a unit whose list is empty and whose header has no
    [unit_length], every indexed access raises [KeyError('unit_length')],
    whatever the index; no constructor is called and the list stays
    empty. *)
Theorem get_DIE_missing_unit_length (fuel : nat) (index : Z) (w : Wd) :
  _dielist (self w) = [] →
  header (self w) !! "unit_length" = None →
  _get_DIE size DIE_new fuel index w
  = (Raise (KeyError "unit_length"), logged w ParseDIEs).
Proof.
  intros Hnil Hul. rewrite get_DIE_run, Hnil, bool_decide_eq_true_2 by done.
  by rewrite parse_DIEs_run, Hul.
Qed.

(** ** What a parse adds *)

Lemma count_decodes_fmap (offs : list Z) :
  count_calls is_DecodeRecord (DecodeRecord <$> offs) = length offs.
Proof.
  unfold count_calls. induction offs as [|o offs IH]; [done|].
  rewrite fmap_cons, filter_cons_True by done. simpl. by rewrite IH.
Qed.

Lemma length_offsets (o : Z) (l : list DIE) :
  length (offsets size o l) = length l.
Proof. revert o. induction l as [|d l IH]; intros o; simpl; auto. Qed.

(** X8: [_parse_DIEs] only appends.  Whatever way a run ends, the list
    after it is the list before it followed by the records of the run; each
    of them cost one constructor call, and at most one more call was made
    (the one that raised); a run that returns made none more. *)
Theorem parse_DIEs_appends_only (fuel : nat) (w : Wd) :
  ∃ l : list DIE,
    _dielist (self (snd (_parse_DIEs size DIE_new fuel w)))
    = _dielist (self w) ++ l ∧
    (count_calls is_DecodeRecord (calls w) + length l
     ≤ count_calls is_DecodeRecord
         (calls (snd (_parse_DIEs size DIE_new fuel w)))
     ≤ count_calls is_DecodeRecord (calls w) + length l + 1)%nat ∧
    (fst (_parse_DIEs size DIE_new fuel w) = Return tt →
     count_calls is_DecodeRecord
       (calls (snd (_parse_DIEs size DIE_new fuel w)))
     = (count_calls is_DecodeRecord (calls w) + length l)%nat).
Proof.
  rewrite parse_DIEs_run.
  destruct (header (self w) !! "unit_length") as [ul|].
  - destruct (parse_loop size DIE_new fuel (boundary_of (self w) ul)
                (cu_die_offset (self w)) (logged w ParseDIEs))
      as [r w'] eqn:Hrun.
    destruct (parse_loop_walk _ _ _ _ _ _ Hrun) as (l & o1 & w1 & Hwalk & Hr).
    destruct (walk_facts _ _ _ _ _ _ Hwalk) as (_ & Hself & Hcalls).
    simpl in Hself, Hcalls.
    assert (count_calls is_DecodeRecord (calls w1)
            = (count_calls is_DecodeRecord (calls w) + length l)%nat)
      as Hcount.
    { rewrite Hcalls, !count_calls_app, count_calls_singleton,
        count_decodes_fmap, length_offsets. simpl. lia. }
    exists l. simpl. destruct r as [[]|e|].
    + destruct Hr as [_ ->]. rewrite Hself, Hcount. simpl.
      split_and!; try done; lia.
    + destruct Hr as (_ & _ & ->). simpl.
      rewrite Hself, count_calls_app, count_calls_singleton, Hcount. simpl.
      split_and!; try done; lia.
    + subst w'. rewrite Hself, Hcount. simpl. split_and!; try done; lia.
  - exists []. simpl.
    rewrite app_nil_r, count_calls_app, count_calls_singleton. simpl.
    split_and!; try done; lia.
Qed.

(** X9: where a returned parse stops.  On a unit whose list was empty,
    every record of the list starts below the boundary, and the records
    together reach it: the list ends with the first record that ends at or
    past the boundary, and it is empty exactly when the boundary is not past
    the top DIE. *)
Theorem dielist_last_reaches_boundary (fuel : nat) (w w' : Wd)
    (unit_length : Z) :
  _dielist (self w) = [] →
  header (self w) !! "unit_length" = Some unit_length →
  _parse_DIEs size DIE_new fuel w = (Return tt, w') →
  (∀ i : nat,
     (i < length (_dielist (self w')))%nat →
     cu_die_offset (self w) + sizes_sum size (take i (_dielist (self w')))
     < boundary_of (self w) unit_length) ∧
  boundary_of (self w) unit_length
  ≤ cu_die_offset (self w) + sizes_sum size (_dielist (self w')) ∧
  (_dielist (self w') = [] ↔
   boundary_of (self w) unit_length ≤ cu_die_offset (self w)).
Proof.
  intros Hnil Hul Hparse.
  destruct (parse_DIEs_returned _ _ _ Hparse)
    as (ul & l & o1 & Hul' & Hwalk & Hge).
  rewrite Hul in Hul'. injection Hul' as <-.
  destruct (walk_facts _ _ _ _ _ _ Hwalk) as (Ho1 & Hself & _).
  simpl in Hself. rewrite Hnil in Hself. simpl in Hself.
  rewrite Hself. simpl.
  assert (∀ i : nat, (i < length l)%nat →
            cu_die_offset (self w) + sizes_sum size (take i l)
            < boundary_of (self w) unit_length) as Hstart.
  { intros i Hi. destruct (lookup_lt_is_Some_2 l i Hi) as [d Hd].
    by destruct (walk_lookup _ _ _ _ _ _ Hwalk i d Hd) as [Hlt _]. }
  split_and!; [done|simpl in Ho1; lia|].
  split.
  - intros ->. simpl in Ho1. lia.
  - intros Hle. destruct l as [|d l]; [done|].
    specialize (Hstart 0%nat ltac:(simpl; lia)). simpl in Hstart. lia.
Qed.

(** X10: under the decoder's contract the list cannot hold more records
    than the unit has bytes between its top DIE and its boundary. *)
Theorem dielist_length_bounded (fuel : nat) (w w' : Wd) (unit_length : Z) :
  _dielist (self w) = [] →
  header (self w) !! "unit_length" = Some unit_length →
  cu_die_offset (self w) ≤ boundary_of (self w) unit_length →
  decoder_contract size DIE_new (self w) (boundary_of (self w) unit_length) →
  _parse_DIEs size DIE_new fuel w = (Return tt, w') →
  Z.of_nat (length (_dielist (self w')))
  ≤ boundary_of (self w) unit_length - cu_die_offset (self w).
Proof.
  intros Hnil Hul Hext Hc Hparse.
  destruct (parse_DIEs_returned _ _ _ Hparse)
    as (ul & l & o1 & Hul' & Hwalk & Hge).
  rewrite Hul in Hul'. injection Hul' as <-.
  destruct (walk_facts _ _ _ _ _ _ Hwalk) as (Ho1 & Hself & _).
  destruct (walk_within _ _ _ _ _ _ _ Hc Hwalk) as [Hpos Htake];
    [done|simpl; lia|done|].
  simpl in Hself. rewrite Hnil in Hself. simpl in Hself.
  rewrite Hself. simpl.
  pose proof (Htake (length l)) as Hall. rewrite firstn_all in Hall.
  assert (Z.of_nat (length l) ≤ sizes_sum size l); [|lia].
  clear -Hpos. induction l as [|d l IH]; simpl; [done|].
  pose proof (Hpos d ltac:(by left)).
  assert (Z.of_nat (length l) ≤ sizes_sum size l)
    by (apply IH; intros; apply Hpos; by right).
  lia.
Qed.

(** ** Indexed access, again and again *)

(** X11: an indexed access that returned a DIE has settled the matter: the
    same access made again, with [get_top_DIE] for index 0, returns that
    DIE and changes nothing, no parse and no constructor call. *)
Theorem get_DIE_idempotent (fuel fuel' : nat) (index : Z) (w w' : Wd)
    (d : DIE) :
  _get_DIE size DIE_new fuel index w = (Return d, w') →
  _get_DIE size DIE_new fuel' index w' = (Return d, w') ∧
  (index = 0 → get_top_DIE size DIE_new fuel' w' = (Return d, w')).
Proof.
  intros Hget.
  assert (_dielist (self w') ≠ [] ∧
          list_getitem (_dielist (self w')) index = inr d) as [Hne Hidx].
  { destruct (_dielist (self w)) as [|d0 l0] eqn:Hl.
    - apply get_DIE_returned in Hget as [_ Hidx]; [|done].
      split; [|done]. intros Hnil. rewrite Hnil in Hidx.
      by rewrite list_getitem_out_of_range in Hidx by (simpl; lia).
    - rewrite get_DIE_run, Hl, bool_decide_eq_false_2 in Hget by done.
      unfold lift in Hget.
      destruct (list_getitem (d0 :: l0) index) as [e|d'] eqn:Hidx; [done|].
      injection Hget as -> <-. by rewrite Hl. }
  assert (_get_DIE size DIE_new fuel' index w' = (Return d, w')) as Hagain.
  { destruct (get_DIE_populated fuel' index w' Hne) as [-> _].
    by rewrite Hidx. }
  split; [done|]. intros ->. exact Hagain.
Qed.

(** X13: on a populated list of [L] records, the indices [i] and [i - L],
    for [0 <= i < L], address the same record: the two accesses end the
    same. *)
Theorem get_DIE_negative_index_alias (fuel : nat) (index : Z) (w : Wd) :
  0 ≤ index < Z.of_nat (length (_dielist (self w))) →
  _get_DIE size DIE_new fuel
    (index - Z.of_nat (length (_dielist (self w)))) w
  = _get_DIE size DIE_new fuel index w.
Proof.
  intros Hidx.
  assert (_dielist (self w) ≠ []) as Hne.
  { intros Hnil. rewrite Hnil in Hidx. simpl in Hidx. lia. }
  destruct (get_DIE_populated fuel index w Hne) as [-> _].
  destruct (get_DIE_populated fuel
              (index - Z.of_nat (length (_dielist (self w)))) w Hne)
    as [-> _].
  destruct (list_getitem_nonneg _ _ Hidx) as (x & Hx & ->).
  destruct (list_getitem_negative (_dielist (self w))
              (index - Z.of_nat (length (_dielist (self w))))
              ltac:(lia)) as (y & Hy & ->).
  replace (Z.of_nat (length (_dielist (self w)))
           + (index - Z.of_nat (length (_dielist (self w)))))
    with index in Hy by lia.
  rewrite Hx in Hy. by injection Hy as ->.
Qed.

End Properties.

(** * The constructor handed the unit *)

Section HandedProperties.

Context {Stream AbbrevTable DIE : Type}.
Variable size : DIE → Z.
Variable DIE_init : Stream → Z → M Stream AbbrevTable DIE DIE.

Abbreviation HW := (World Stream AbbrevTable DIE).

Lemma handed_parse_loop_S (fuel : nat) (b o : Z) (w : HW) :
  Handed.parse_loop size DIE_init (S fuel) b o w =
  if bool_decide (o < b) then
    match DIE_init (stream (dwarfinfo (self w))) o
            (logged w (DecodeRecord o)) with
    | (Return die, w1) =>
        Handed.parse_loop size DIE_init fuel b (o + size die)
          (Handed.appended w1 die)
    | (Raise e, w1) => (Raise e, w1)
    | (OutOfFuel, w1) => (OutOfFuel, w1)
    end
  else (Return tt, w).
Proof.
  simpl. case_bool_decide; [|done].
  unfold mbind, M_bind, get_self, log, dielist_append. simpl.
  fold (logged w (DecodeRecord o)).
  by destruct (DIE_init (stream (dwarfinfo (self w))) o
                 (logged w (DecodeRecord o))) as [[die|e|] w1].
Qed.

Lemma handed_parse_DIEs_run (fuel : nat) (w : HW) :
  Handed._parse_DIEs size DIE_init fuel w =
  match header (self w) !! "unit_length" with
  | Some ul => Handed.parse_loop size DIE_init fuel (boundary_of (self w) ul)
                 (cu_die_offset (self w)) (logged w ParseDIEs)
  | None => (Raise (KeyError "unit_length"), logged w ParseDIEs)
  end.
Proof.
  unfold Handed._parse_DIEs, mbind, M_bind, log, get_self. simpl.
  fold (logged w ParseDIEs). rewrite cu_boundary_run. simpl.
  by destruct (header (self w) !! "unit_length").
Qed.

Lemma handed_get_DIE_run (fuel : nat) (index : Z) (w : HW) :
  Handed._get_DIE size DIE_init fuel index w =
  if bool_decide (length (_dielist (self w)) = 0%nat) then
    match Handed._parse_DIEs size DIE_init fuel w with
    | (Return _, w') => lift (list_getitem (_dielist (self w')) index) w'
    | (Raise e, w') => (Raise e, w')
    | (OutOfFuel, w') => (OutOfFuel, w')
    end
  else lift (list_getitem (_dielist (self w)) index) w.
Proof.
  unfold Handed._get_DIE, mbind, M_bind, mret, M_ret, get_self. simpl.
  case_bool_decide; [|done].
  by destruct (Handed._parse_DIEs size DIE_init fuel w) as [[[]| |] w'].
Qed.

Lemma unit_frame_refl (cu : CompileUnit Stream AbbrevTable DIE) :
  Handed.unit_frame cu cu.
Proof. by repeat split. Qed.

Lemma unit_frame_trans (cu1 cu2 cu3 : CompileUnit Stream AbbrevTable DIE) :
  Handed.unit_frame cu1 cu2 → Handed.unit_frame cu2 cu3 →
  Handed.unit_frame cu1 cu3.
Proof.
  intros (H1 & H2 & H3 & H4 & H5 & H6) (K1 & K2 & K3 & K4 & K5 & K6).
  unfold Handed.unit_frame.
  rewrite K1, K2, K3, K4, K5, H1, H2, H3, H4, H5. split_and!; auto.
Qed.

(** Along a walk the constructor's changes add up, and the loop adds the
    appends. *)
Lemma handed_walk_facts (b o o' : Z) (w w' : HW) (l : list DIE) :
  Handed.fills_table_only DIE_init →
  Handed.walk size DIE_init b o w l o' w' →
  o' = o + sizes_sum size l ∧
  _dielist (self w') = _dielist (self w) ++ l ∧
  Handed.unit_frame (self w) (self w').
Proof.
  intros Hc.
  induction 1 as [o w|o w w1 die l o' w' Hlt Hdec Hwalk IH]; simpl.
  - rewrite app_nil_r. split_and!; [lia|done|apply unit_frame_refl].
  - destruct IH as (-> & Hlist & Hframe).
    destruct (Hc (stream (dwarfinfo (self w))) o (logged w (DecodeRecord o)))
      as [Hf Hl].
    rewrite Hdec in Hf, Hl. simpl in Hf, Hl, Hlist, Hframe.
    rewrite Hlist, Hl, <- app_assoc. split_and!; [lia|done|].
    eapply unit_frame_trans; [exact Hf|].
    eapply unit_frame_trans; [|exact Hframe]. by repeat split.
Qed.

(** Record [i] of a walk is what a constructor call returned at the offset
    that the records before it add up to. *)
Lemma handed_walk_lookup (b o o' : Z) (w w' : HW) (l : list DIE) :
  Handed.fills_table_only DIE_init →
  Handed.walk size DIE_init b o w l o' w' →
  ∀ (i : nat) (die : DIE), l !! i = Some die →
    ∃ wa wb,
      _dielist (self wa) = _dielist (self w) ++ take i l ∧
      DIE_init (stream (dwarfinfo (self w))) (o + sizes_sum size (take i l))
        (logged wa (DecodeRecord (o + sizes_sum size (take i l))))
      = (Return die, wb).
Proof.
  intros Hc.
  induction 1 as [o w|o w w1 die l o' w' Hlt Hdec Hwalk IH];
    intros i d Hi; [done|].
  destruct i as [|i]; simpl in *.
  - injection Hi as <-. exists w, w1.
    by rewrite app_nil_r, Z.add_0_r.
  - destruct (IH i d Hi) as (wa & wb & Hla & Hda).
    destruct (Hc (stream (dwarfinfo (self w))) o (logged w (DecodeRecord o)))
      as [(Hdi & _) Hl].
    rewrite Hdec in Hdi, Hl. simpl in Hdi, Hl, Hla, Hda.
    rewrite Hdi in Hda. rewrite Hl, <- app_assoc in Hla.
    exists wa, wb. by rewrite Z.add_assoc.
Qed.

Lemma handed_parse_loop_walk (fuel : nat) (b o : Z) (w w' : HW)
    (r : outcome unit) :
  Handed.parse_loop size DIE_init fuel b o w = (r, w') →
  ∃ l o1 w1, Handed.walk size DIE_init b o w l o1 w1 ∧
    match r with
    | Return _ => b ≤ o1 ∧ w' = w1
    | Raise e =>
        o1 < b ∧
        DIE_init (stream (dwarfinfo (self w1))) o1
          (logged w1 (DecodeRecord o1)) = (Raise e, w')
    | OutOfFuel => True
    end.
Proof.
  revert o w. induction fuel as [|fuel IH]; intros o w.
  - intros [= <- <-]. exists [], o, w. split; [constructor|done].
  - rewrite handed_parse_loop_S. case_bool_decide as Hlt.
    + destruct (DIE_init (stream (dwarfinfo (self w))) o
                  (logged w (DecodeRecord o))) as [[die|e|] w1] eqn:Hdec.
      * intros Hrun. destruct (IH _ _ Hrun) as (l & o1 & w2 & Hwalk & Hr).
        exists (die :: l), o1, w2. split; [by econstructor|done].
      * intros [= <- <-]. exists [], o, w. split; [constructor|done].
      * intros [= <- <-]. exists [], o, w. split; [constructor|done].
    + intros [= <- <-]. exists [], o, w.
      split; [constructor|]. split; [lia|done].
Qed.

(** The loop adds appends to what the constructor does, nothing else. *)
Lemma handed_parse_loop_frame (b : Z) :
  Handed.fills_table_only DIE_init →
  ∀ (fuel : nat) (o : Z) (w : HW),
    Handed.unit_frame (self w)
      (self (snd (Handed.parse_loop size DIE_init fuel b o w))) ∧
    ∃ l, _dielist (self (snd (Handed.parse_loop size DIE_init fuel b o w)))
         = _dielist (self w) ++ l.
Proof.
  intros Hc. induction fuel as [|fuel IH]; intros o w.
  - simpl. split; [apply unit_frame_refl|]. exists []. by rewrite app_nil_r.
  - rewrite handed_parse_loop_S. case_bool_decide;
      [|simpl; split; [apply unit_frame_refl|];
        exists []; by rewrite app_nil_r].
    destruct (Hc (stream (dwarfinfo (self w))) o (logged w (DecodeRecord o)))
      as [Hf Hl].
    destruct (DIE_init (stream (dwarfinfo (self w))) o
                (logged w (DecodeRecord o))) as [[die|e|] w1];
      simpl in Hf, Hl.
    + destruct (IH (o + size die) (Handed.appended w1 die))
        as [Hf' [l Hl']].
      split.
      * eapply unit_frame_trans; [exact Hf|].
        eapply unit_frame_trans; [|exact Hf']. by repeat split.
      * exists (die :: l). rewrite Hl'. simpl. by rewrite Hl, <- app_assoc.
    + simpl. split; [done|]. exists []. by rewrite app_nil_r.
    + simpl. split; [done|]. exists []. by rewrite app_nil_r.
Qed.

Lemma handed_parse_DIEs_frame (fuel : nat) (w : HW) :
  Handed.fills_table_only DIE_init →
  Handed.unit_frame (self w)
    (self (snd (Handed._parse_DIEs size DIE_init fuel w))) ∧
  ∃ l, _dielist (self (snd (Handed._parse_DIEs size DIE_init fuel w)))
       = _dielist (self w) ++ l.
Proof.
  intros Hc. rewrite handed_parse_DIEs_run.
  destruct (header (self w) !! "unit_length") as [ul|].
  - apply (handed_parse_loop_frame (boundary_of (self w) ul) Hc fuel
             (cu_die_offset (self w)) (logged w ParseDIEs)).
  - simpl. split; [apply unit_frame_refl|]. exists []. by rewrite app_nil_r.
Qed.

(** C10, as the code has it: the constructor is handed the unit, and a
    constructor that asks for the abbreviation table fills
    [_abbrev_table] during the walk.  With a constructor that touches the
    unit at most that way, whatever way a run of [_parse_DIEs] ends,
    [dwarfinfo], [header], [structs], [cu_offset] and [cu_die_offset] are
    what they were, a table that was cached is still the cached one, and
    the list is the old list with records appended. *)
Theorem parse_DIEs_frame (fuel : nat) (w : HW) :
  Handed.fills_table_only DIE_init →
  let cu := self w in
  let cu' := self (snd (Handed._parse_DIEs size DIE_init fuel w)) in
  dwarfinfo cu' = dwarfinfo cu ∧
  header cu' = header cu ∧
  structs cu' = structs cu ∧
  cu_offset cu' = cu_offset cu ∧
  cu_die_offset cu' = cu_die_offset cu ∧
  (∀ t, _abbrev_table cu = Some t → _abbrev_table cu' = Some t) ∧
  (∃ l, _dielist cu' = _dielist cu ++ l).
Proof.
  intros Hc cu cu'. subst cu cu'.
  destruct (handed_parse_DIEs_frame fuel w Hc)
    as [(? & ? & ? & ? & ? & ?) ?].
  by repeat split.
Qed.

(** X12: with a constructor that touches the unit at most by filling its
    abbreviation table, whatever way an indexed access ends, [dwarfinfo],
    [header], [structs], [cu_offset] and [cu_die_offset] are what they
    were, a table that was cached is still the cached one, and the list is
    the old list with records appended. *)
Theorem get_DIE_frame (fuel : nat) (index : Z) (w : HW) :
  Handed.fills_table_only DIE_init →
  let cu := self w in
  let cu' := self (snd (Handed._get_DIE size DIE_init fuel index w)) in
  dwarfinfo cu' = dwarfinfo cu ∧
  header cu' = header cu ∧
  structs cu' = structs cu ∧
  cu_offset cu' = cu_offset cu ∧
  cu_die_offset cu' = cu_die_offset cu ∧
  (∀ t, _abbrev_table cu = Some t → _abbrev_table cu' = Some t) ∧
  (∃ l, _dielist cu' = _dielist cu ++ l).
Proof.
  intros Hc cu cu'. subst cu cu'.
  assert (Handed.unit_frame (self w)
            (self (snd (Handed._get_DIE size DIE_init fuel index w))) ∧
          ∃ l, _dielist
                 (self (snd (Handed._get_DIE size DIE_init fuel index w)))
               = _dielist (self w) ++ l) as [(? & ? & ? & ? & ? & ?) ?];
    [|by repeat split].
  rewrite handed_get_DIE_run. case_bool_decide.
  - pose proof (handed_parse_DIEs_frame fuel w Hc) as Hp.
    destruct (Handed._parse_DIEs size DIE_init fuel w) as [[[]|e|] w1];
      [|done|done].
    simpl in Hp |- *.
    by destruct (list_getitem (_dielist (self w1)) index).
  - assert (snd (lift (list_getitem (_dielist (self w)) index) w) = w) as ->
      by by destruct (list_getitem (_dielist (self w)) index).
    split; [apply unit_frame_refl|]. exists []. by rewrite app_nil_r.
Qed.

(** C3, as the code has it: when [_parse_DIEs] raises, the records
    appended before the failure stay in [_dielist].  Either the header has
    no [unit_length] and nothing was decoded; or the list left behind is
    exactly the run of records the walk appended, each the result of a
    constructor call at the offset the records before it add up to, and
    the error is what the constructor raised at the offset right after
    them, below the boundary.  If that list is empty the next indexed
    access parses again; if it is not, the next indexed access subscripts
    the partial list and does not parse. *)
Theorem failed_parse_partial_list (fuel : nat) (w w' : HW) (e : exn) :
  Handed.fills_table_only DIE_init →
  _dielist (self w) = [] →
  Handed._parse_DIEs size DIE_init fuel w = (Raise e, w') →
  ((header (self w) !! "unit_length" = None ∧
    e = KeyError "unit_length" ∧ w' = logged w ParseDIEs) ∨
   (∃ unit_length o1 w1,
      header (self w) !! "unit_length" = Some unit_length ∧
      Handed.walk size DIE_init (boundary_of (self w) unit_length)
        (cu_die_offset (self w)) (logged w ParseDIEs)
        (_dielist (self w')) o1 w1 ∧
      o1 = cu_die_offset (self w) + sizes_sum size (_dielist (self w')) ∧
      o1 < boundary_of (self w) unit_length ∧
      DIE_init (stream (dwarfinfo (self w))) o1
        (logged w1 (DecodeRecord o1)) = (Raise e, w'))) ∧
  (∀ (i : nat) (die : DIE),
     _dielist (self w') !! i = Some die →
     ∃ wa wb,
       _dielist (self wa) = take i (_dielist (self w')) ∧
       DIE_init (stream (dwarfinfo (self w)))
         (cu_die_offset (self w)
          + sizes_sum size (take i (_dielist (self w'))))
         (logged wa
            (DecodeRecord
               (cu_die_offset (self w)
                + sizes_sum size (take i (_dielist (self w'))))))
       = (Return die, wb)) ∧
  (_dielist (self w') = [] →
   ∀ fuel' index,
     Handed._get_DIE size DIE_init fuel' index w'
     = (Handed._parse_DIEs size DIE_init fuel';; cu ← get_self;
        lift (list_getitem (_dielist cu) index)) w') ∧
  (_dielist (self w') ≠ [] →
   ∀ fuel' index,
     Handed._get_DIE size DIE_init fuel' index w'
     = lift (list_getitem (_dielist (self w')) index) w').
Proof.
  intros Hc Hnil Hrun.
  assert (∀ fuel' index,
            _dielist (self w') = [] →
            Handed._get_DIE size DIE_init fuel' index w'
            = (Handed._parse_DIEs size DIE_init fuel';; cu ← get_self;
               lift (list_getitem (_dielist cu) index)) w') as Hagain.
  { intros fuel' index Hl. unfold Handed._get_DIE at 1.
    unfold mbind at 1, M_bind at 1, get_self at 1.
    by rewrite Hl, bool_decide_eq_true_2. }
  assert (∀ fuel' index,
            _dielist (self w') ≠ [] →
            Handed._get_DIE size DIE_init fuel' index w'
            = lift (list_getitem (_dielist (self w')) index) w') as Hkeep.
  { intros fuel' index Hl. rewrite handed_get_DIE_run.
    rewrite bool_decide_eq_false_2; [done|].
    by destruct (_dielist (self w')). }
  rewrite handed_parse_DIEs_run in Hrun.
  destruct (header (self w) !! "unit_length") as [ul|] eqn:Hul.
  - destruct (handed_parse_loop_walk _ _ _ _ _ _ Hrun)
      as (l & o1 & w1 & Hwalk & Hlt & Hdec).
    destruct (handed_walk_facts _ _ _ _ _ _ Hc Hwalk)
      as (Ho1 & Hlist & (Hdi & _)).
    destruct (Hc (stream (dwarfinfo (self w1))) o1
                (logged w1 (DecodeRecord o1))) as [_ Hl].
    rewrite Hdec in Hl. simpl in Hl, Hlist, Ho1, Hdi.
    rewrite Hnil in Hlist. simpl in Hlist. rewrite Hlist in Hl.
    rewrite Hdi in Hdec. rewrite Hl.
    split_and!; [right|..].
    + exists ul, o1, w1. by split_and!.
    + intros i die Hi.
      destruct (handed_walk_lookup _ _ _ _ _ _ Hc Hwalk i die Hi)
        as (wa & wb & Hla & Hda).
      simpl in Hla, Hda. rewrite Hnil in Hla. exists wa, wb. done.
    + intros ->. intros fuel' index. apply Hagain. by rewrite Hl.
    + intros Hne fuel' index. rewrite <- Hl. apply Hkeep. by rewrite Hl.
  - injection Hrun as <- <-. simpl. rewrite Hnil.
    split_and!; [by left|done|..].
    + intros _ fuel' index. by apply Hagain.
    + done.
Qed.

End HandedProperties.

(** ** Two constructors *)

Section Constructors.

Context {Stream AbbrevTable DIE : Type}.
Variable size : DIE → Z.
Variable DIE_new :
  CompileUnit Stream AbbrevTable DIE → Stream → Z → exn + DIE.

(** The methods over a decoder are the methods over the constructor that
    is that decoder. *)
Lemma of_decoder_parse_loop
    (fuel : nat) (b o : Z) (w : World Stream AbbrevTable DIE) :
  Handed.parse_loop size (Handed.of_decoder DIE_new) fuel b o w
  = parse_loop size DIE_new fuel b o w.
Proof.
  revert o w. induction fuel as [|fuel IH]; intros o w; [done|].
  rewrite handed_parse_loop_S, parse_loop_S. case_bool_decide; [|done].
  unfold Handed.of_decoder, mbind, M_bind, get_self. simpl.
  destruct (DIE_new (self w) (stream (dwarfinfo (self w))) o); [done|].
  apply IH.
Qed.

Lemma of_decoder_parse_DIEs
    (fuel : nat) (w : World Stream AbbrevTable DIE) :
  Handed._parse_DIEs size (Handed.of_decoder DIE_new) fuel w
  = _parse_DIEs size DIE_new fuel w.
Proof.
  rewrite handed_parse_DIEs_run, parse_DIEs_run.
  destruct (header (self w) !! "unit_length"); [|done].
  apply of_decoder_parse_loop.
Qed.

Lemma of_decoder_get_DIE
    (fuel : nat) (index : Z) (w : World Stream AbbrevTable DIE) :
  Handed._get_DIE size (Handed.of_decoder DIE_new) fuel index w
  = _get_DIE size DIE_new fuel index w.
Proof.
  by rewrite handed_get_DIE_run, get_DIE_run, of_decoder_parse_DIEs.
Qed.

Lemma of_decoder_fills_table_only :
  Handed.fills_table_only (Handed.of_decoder DIE_new).
Proof.
  intros s o w. unfold Handed.of_decoder, mbind, M_bind, get_self. simpl.
  destruct (DIE_new (self w) s o); simpl;
    (split; [apply unit_frame_refl|done]).
Qed.

Lemma requesting_table_fills_table_only :
  Handed.fills_table_only (Handed.requesting_table DIE_new).
Proof.
  intros s o w.
  assert (Handed.unit_frame (self w) (self (snd (get_abbrev_table w))) ∧
          _dielist (self (snd (get_abbrev_table w))) = _dielist (self w))
    as Hget.
  { rewrite get_abbrev_table_run.
    destruct (_abbrev_table (self w)) as [t0|] eqn:Hab;
      [split; [apply unit_frame_refl|done]|].
    destruct (header (self w) !! "debug_abbrev_offset") as [off|];
      [|split; [apply unit_frame_refl|done]].
    destruct (DWARFInfo_get_abbrev_table (dwarfinfo (self w)) off);
      simpl; [split; [apply unit_frame_refl|done]|].
    split; [|done]. unfold Handed.unit_frame. simpl.
    split_and!; try done. intros t'. by rewrite Hab. }
  unfold Handed.requesting_table, mbind, M_bind, get_self.
  destruct (get_abbrev_table w) as [[t|e|] w1]; simpl in *; [|done|done].
  by destruct (DIE_new (self w1) s o).
Qed.

End Constructors.

(** * The worked unit *)

Lemma scenario_unit_length (unit_length : Z) :
  header (Scenario.unit_of unit_length) !! "unit_length" = Some unit_length.
Proof. apply lookup_insert_eq. Qed.

Lemma scenario_contract :
  decoder_contract Scenario.die_size (Scenario.decoder Scenario.well_formed)
    (Scenario.unit_of 40) (boundary_of (Scenario.unit_of 40) 40).
Proof.
  intros cu' o die [Hlo Hhi] Hdec.
  unfold Scenario.decoder, Scenario.well_formed in Hdec. simpl in Hdec.
  change (boundary_of (Scenario.unit_of 40) 40) with 44 in *.
  repeat case_bool_decide; simplify_eq; simpl; lia.
Qed.

Lemma scenario_three_records_witness :
  cu_boundary (Scenario.start 40) = (Return 44, Scenario.start 40) ∧
  ∀ fuel, (4 ≤ fuel)%nat →
    Scenario.parse Scenario.well_formed fuel (Scenario.start 40)
    = (Return tt, Scenario.finished).
Proof.
  apply (scenario_three_records Scenario.die_size
           (Scenario.decoder Scenario.well_formed) (Scenario.unit_of 40) []
           (Scenario.Build_die 11 5) (Scenario.Build_die 16 20)
           (Scenario.Build_die 36 8));
    first [apply scenario_unit_length | reflexivity | intros; reflexivity].
Defined.

Lemma dielist_tiles_unit_witness :
  (∀ (i : nat) (die : Scenario.die),
     _dielist (self Scenario.finished) !! i = Some die →
     Scenario.decoder Scenario.well_formed
       (with_dielist (self (Scenario.start 40))
          (take i (_dielist (self Scenario.finished))))
       (stream (dwarfinfo (self (Scenario.start 40))))
       (cu_die_offset (self (Scenario.start 40))
        + sizes_sum Scenario.die_size
            (take i (_dielist (self Scenario.finished))))
     = inr die ∧
     0 < Scenario.die_size die ∧
     cu_die_offset (self (Scenario.start 40))
     + sizes_sum Scenario.die_size
         (take (S i) (_dielist (self Scenario.finished)))
     ≤ boundary_of (self (Scenario.start 40)) 40) ∧
  sizes_sum Scenario.die_size (_dielist (self Scenario.finished))
  = boundary_of (self (Scenario.start 40)) 40
    - cu_die_offset (self (Scenario.start 40)) ∧
  calls Scenario.finished
  = calls (Scenario.start 40) ++ ParseDIEs ::
      (DecodeRecord <$> offsets Scenario.die_size
                          (cu_die_offset (self (Scenario.start 40)))
                          (_dielist (self Scenario.finished))).
Proof.
  apply (dielist_tiles_unit Scenario.die_size
           (Scenario.decoder Scenario.well_formed) 4
           (Scenario.start 40) Scenario.finished 40).
  - reflexivity.
  - apply scenario_unit_length.
  - vm_compute. discriminate.
  - apply scenario_contract.
  - vm_compute. reflexivity.
Defined.

Lemma parse_DIEs_terminates_witness :
  ∃ (n : nat) (r : outcome unit) (w' : World unit Z Scenario.die),
    r ≠ OutOfFuel ∧
    ∀ fuel, (n ≤ fuel)%nat →
      Scenario.parse Scenario.well_formed fuel (Scenario.start 40) = (r, w').
Proof.
  apply (parse_DIEs_terminates Scenario.die_size
           (Scenario.decoder Scenario.well_formed) (Scenario.start 40)).
  intros ul Hul.
  change (self (Scenario.start 40)) with (Scenario.unit_of 40) in *.
  rewrite scenario_unit_length in Hul.
  injection Hul as <-. apply scenario_contract.
Defined.

(** C2 fails on the code.  With a third record that claims 10 bytes at
    offset 36, two past the boundary 44, [_parse_DIEs] returns without error
    and keeps the record.  With a second record of size 0, no amount of fuel
    brings [_parse_DIEs] to raise anything: the loop stays at offset 16. *)
Lemma truncated_record_not_raised :
  Scenario.parse Scenario.overshoot 4 (Scenario.start 40)
  = (Return tt,
     Scenario.parsed 40
       [Scenario.Build_die 11 5; Scenario.Build_die 16 20;
        Scenario.Build_die 36 10] [11; 16; 36]) ∧
  ¬ (∃ fuel e w',
       Scenario.parse Scenario.zero_size fuel (Scenario.start 40)
       = (Raise e, w')).
Proof.
  split; [vm_compute; reflexivity|].
  intros (fuel & e & w' & Hrun).
  unfold Scenario.parse in Hrun. rewrite parse_DIEs_run in Hrun.
  change (self (Scenario.start 40)) with (Scenario.unit_of 40) in Hrun.
  rewrite scenario_unit_length in Hrun.
  destruct fuel as [|fuel]; [done|].
  rewrite parse_loop_S in Hrun.
  change (boundary_of (Scenario.unit_of 40) 40) with 44 in Hrun.
  change (cu_die_offset (Scenario.unit_of 40)) with 11 in Hrun.
  rewrite bool_decide_eq_true_2 in Hrun by lia.
  change (Scenario.decoder Scenario.zero_size _ _ 11)
    with (@inr exn _ (Scenario.Build_die 11 5)) in Hrun.
  cbv beta iota in Hrun.
  change (11 + Scenario.die_size (Scenario.Build_die 11 5)) with 16 in Hrun.
  pose proof (parse_loop_stalls Scenario.die_size
                (Scenario.decoder Scenario.zero_size) tt 44 16
                (Scenario.Build_die 16 0) ltac:(lia) (λ _, eq_refl) eq_refl
                fuel
                (after_decode (logged (Scenario.start 40) ParseDIEs) 11
                   (Scenario.Build_die 11 5))
                eq_refl) as Hstall.
  rewrite Hrun in Hstall. done.
Qed.

Lemma parse_loop_size_unchecked_witness :
  (Scenario.parse Scenario.overshoot 4 (Scenario.start 40)
   = (Return tt,
      Scenario.parsed 40
        [Scenario.Build_die 11 5; Scenario.Build_die 16 20;
         Scenario.Build_die 36 10] [11; 16; 36])) ∧
  ∀ fuel',
    fst (parse_loop Scenario.die_size (Scenario.decoder Scenario.zero_size)
           fuel' 44 16 (Scenario.parsed 40 [Scenario.Build_die 11 5] [11]))
    = OutOfFuel.
Proof.
  split.
  - pose proof (parse_loop_size_unchecked Scenario.die_size
                  (Scenario.decoder Scenario.overshoot) 0 44 36
                  (Scenario.parsed 40
                     [Scenario.Build_die 11 5; Scenario.Build_die 16 20]
                     [11; 16])
                  (Scenario.Build_die 36 10) ltac:(lia) (λ _, eq_refl))
      as (_ & Hover & _).
    specialize (Hover ltac:(simpl; lia)).
    etransitivity; [|exact Hover]. vm_compute. reflexivity.
  - apply (parse_loop_size_unchecked Scenario.die_size
             (Scenario.decoder Scenario.zero_size) 0 44 16
             (Scenario.parsed 40 [Scenario.Build_die 11 5] [11])
             (Scenario.Build_die 16 0) ltac:(lia) (λ _, eq_refl)).
    reflexivity.
Defined.

(** C3 fails on the code.  The constructor returns at offset 11 and raises
    at offset 16: the access raises, the record of offset 11 stays in
    [_dielist], and the next access returns it without parsing again. *)
Lemma failed_parse_leaves_records :
  Scenario.get Scenario.broken 4 0 (Scenario.start 40)
  = (Raise (ExternalError 16), Scenario.after_failure) ∧
  _dielist (self Scenario.after_failure) = [Scenario.Build_die 11 5] ∧
  Scenario.get Scenario.broken 4 0 Scenario.after_failure
  = (Return (Scenario.Build_die 11 5), Scenario.after_failure).
Proof. split_and!; vm_compute; reflexivity. Qed.

Lemma failed_parse_partial_list_witness :
  (∀ (i : nat) (die : Scenario.die),
     _dielist
       (self (snd (Scenario.parse_handed Scenario.broken 4
                     (Scenario.start 40)))) !! i = Some die →
     ∃ wa wb,
       _dielist (self wa)
       = take i (_dielist
                   (self (snd (Scenario.parse_handed Scenario.broken 4
                                 (Scenario.start 40))))) ∧
       Scenario.constructor Scenario.broken
         (stream (dwarfinfo (self (Scenario.start 40))))
         (cu_die_offset (self (Scenario.start 40))
          + sizes_sum Scenario.die_size
              (take i (_dielist
                         (self (snd (Scenario.parse_handed Scenario.broken 4
                                       (Scenario.start 40)))))))
         (logged wa
            (DecodeRecord
               (cu_die_offset (self (Scenario.start 40))
                + sizes_sum Scenario.die_size
                    (take i (_dielist
                               (self
                                  (snd (Scenario.parse_handed
                                          Scenario.broken 4
                                          (Scenario.start 40)))))))))
       = (Return die, wb)) ∧
  (∀ fuel' index,
     Scenario.get_handed Scenario.broken fuel' index
       (snd (Scenario.parse_handed Scenario.broken 4 (Scenario.start 40)))
     = lift (list_getitem
               (_dielist
                  (self (snd (Scenario.parse_handed Scenario.broken 4
                                (Scenario.start 40))))) index)
         (snd (Scenario.parse_handed Scenario.broken 4
                 (Scenario.start 40)))).
Proof.
  destruct (failed_parse_partial_list Scenario.die_size
              (Scenario.constructor Scenario.broken) 4 (Scenario.start 40)
              (snd (Scenario.parse_handed Scenario.broken 4
                      (Scenario.start 40)))
              (ExternalError 16))
    as (_ & Hrecords & _ & Hnext).
  - apply requesting_table_fills_table_only.
  - reflexivity.
  - vm_compute. reflexivity.
  - split; [exact Hrecords|]. apply Hnext. vm_compute. discriminate.
Defined.

(** C4 fails on the code.  A unit whose boundary is not past its top DIE
    parses to an empty list; the parse returns, and the next indexed access
    parses again. *)
Lemma empty_unit_parsed_again :
  Scenario.parse Scenario.well_formed 1 (Scenario.start 7)
  = (Return tt, Scenario.parsed 7 [] []) ∧
  calls (snd (Scenario.get Scenario.well_formed 1 0 (Scenario.parsed 7 [] [])))
  = [ParseDIEs; ParseDIEs] ∧
  count_calls is_ParseDIEs
    (calls (snd (Scenario.get Scenario.well_formed 1 0
                   (snd (Scenario.get Scenario.well_formed 1 0
                           (Scenario.start 7))))))
  = 2%nat.
Proof. split_and!; vm_compute; reflexivity. Qed.

Lemma memoized_fields_once_witness :
  (count_calls is_ResolveSchema
     (calls (snd (get_abbrev_table (Scenario.start 40)))) = 1%nat ∧
   get_abbrev_table (snd (get_abbrev_table (Scenario.start 40)))
   = (Return 1000, snd (get_abbrev_table (Scenario.start 40)))) ∧
  (count_calls is_ParseDIEs (calls Scenario.finished) = 1%nat ∧
   ∀ fuel index,
     Scenario.get Scenario.well_formed fuel index Scenario.finished
     = Scenario.get Scenario.well_formed 4 index (Scenario.start 40) ∧
     snd (Scenario.get Scenario.well_formed fuel index Scenario.finished)
     = Scenario.finished).
Proof.
  destruct (memoized_fields_once Scenario.die_size
              (Scenario.decoder Scenario.well_formed)
              (Scenario.start 40) (snd (get_abbrev_table (Scenario.start 40)))
              (Scenario.start 40) Scenario.finished 1000 4)
    as [(Hcount & Hagain & _) (Hparse & Hget & _)].
  - reflexivity.
  - vm_compute. reflexivity.
  - reflexivity.
  - vm_compute. reflexivity.
  - discriminate.
  - split; split; assumption.
Defined.

(** C7 fails on the code.  With [unit_length = 7] the boundary is
    [0 + 7 + 4 = 11], the offset of the top DIE: [_parse_DIEs] returns with
    an empty list, and no amount of fuel makes it raise. *)
Lemma nonpositive_extent_no_error :
  boundary_of (Scenario.unit_of 7) 7 ≤ cu_die_offset (Scenario.unit_of 7) ∧
  Scenario.parse Scenario.well_formed 1 (Scenario.start 7)
  = (Return tt, Scenario.parsed 7 [] []) ∧
  ¬ (∃ fuel e w',
       Scenario.parse Scenario.well_formed fuel (Scenario.start 7)
       = (Raise e, w')).
Proof.
  split_and!; [vm_compute; discriminate|vm_compute; reflexivity|].
  intros (fuel & e & w' & Hrun). destruct fuel as [|fuel]; [done|].
  unfold Scenario.parse in Hrun.
  rewrite (parse_DIEs_empty_extent Scenario.die_size
             (Scenario.decoder Scenario.well_formed) fuel (Scenario.start 7) 7)
    in Hrun; [done|apply scenario_unit_length|vm_compute; discriminate].
Qed.

Lemma nonpositive_extent_returns_witness :
  Scenario.parse Scenario.well_formed 1 (Scenario.start 7)
  = (Return tt, logged (Scenario.start 7) ParseDIEs).
Proof.
  apply (nonpositive_extent_returns Scenario.die_size
           (Scenario.decoder Scenario.well_formed) 1 (Scenario.start 7) 7).
  - apply scenario_unit_length.
  - vm_compute. discriminate.
  - lia.
Defined.

(** C8 fails on the code.  On the three-record list, index [-1] is outside
    [0, 3) and the access returns the last record. *)
Lemma negative_index_returns_record :
  length (_dielist (self Scenario.finished)) = 3%nat ∧
  ¬ (0 ≤ -1 < 3) ∧
  Scenario.get Scenario.well_formed 4 (-1) Scenario.finished
  = (Return (Scenario.Build_die 36 8), Scenario.finished).
Proof. split_and!; [reflexivity|lia|vm_compute; reflexivity]. Qed.

Lemma get_DIE_index_bounds_witness :
  (∃ die,
     _dielist (self Scenario.finished)
       !! Z.to_nat (Z.of_nat (length (_dielist (self Scenario.finished)))
                    + -1)
     = Some die ∧
     Scenario.get Scenario.well_formed 1 (-1) Scenario.finished
     = (Return die, Scenario.finished)) ∧
  fst (Scenario.get Scenario.well_formed 1 3 Scenario.finished)
  = Raise IndexError ∧
  fst (Scenario.get Scenario.well_formed 1 (-4) Scenario.finished)
  = Raise IndexError ∧
  (∃ die,
     Scenario.get Scenario.well_formed 1 0 Scenario.finished
     = (Return die, Scenario.finished)).
Proof.
  assert (Hrun : Scenario.parse Scenario.well_formed 4 (Scenario.start 40)
                 = (Return tt, Scenario.finished))
    by (vm_compute; reflexivity).
  pose proof (get_DIE_index_bounds Scenario.die_size
                (Scenario.decoder Scenario.well_formed) 4 1
                (Scenario.start 40) Scenario.finished) as Hb.
  split_and!.
  - apply (Hb (-1) eq_refl Hrun (le_n 1)). simpl. lia.
  - apply (Hb 3 eq_refl Hrun (le_n 1)). simpl. lia.
  - apply (Hb (-4) eq_refl Hrun (le_n 1)). simpl. lia.
  - apply (Hb 0 eq_refl Hrun (le_n 1)). simpl. lia.
Defined.

Lemma getitem_header_lookup_witness :
  __getitem__ "unit_length" (Scenario.start 40)
  = (Return 40, Scenario.start 40) ∧
  __getitem__ "version" (Scenario.start 40)
  = (Raise (KeyError "version"), Scenario.start 40).
Proof.
  split.
  - apply (getitem_header_lookup "unit_length" (Scenario.start 40)).
    apply scenario_unit_length.
  - apply (getitem_header_lookup "version" (Scenario.start 40)).
    vm_compute. reflexivity.
Defined.

(** C10 fails on the code.  The constructor that asks the unit for its
    abbreviation table is handed a unit with no table cached; the walk
    returns, and the table is cached. *)
Lemma parse_DIEs_fills_abbrev_table :
  _abbrev_table (self (Scenario.start 40)) = None ∧
  fst (Scenario.parse_handed Scenario.well_formed 4 (Scenario.start 40))
  = Return tt ∧
  _abbrev_table
    (self (snd (Scenario.parse_handed Scenario.well_formed 4
                  (Scenario.start 40))))
  = Some 1000.
Proof. split_and!; vm_compute; reflexivity. Qed.

Lemma parse_DIEs_frame_witness :
  dwarfinfo (self (snd (Scenario.parse_handed Scenario.well_formed 4
                          Scenario.cached)))
  = dwarfinfo (self Scenario.cached) ∧
  header (self (snd (Scenario.parse_handed Scenario.well_formed 4
                       Scenario.cached)))
  = header (self Scenario.cached) ∧
  structs (self (snd (Scenario.parse_handed Scenario.well_formed 4
                        Scenario.cached)))
  = structs (self Scenario.cached) ∧
  cu_offset (self (snd (Scenario.parse_handed Scenario.well_formed 4
                          Scenario.cached)))
  = cu_offset (self Scenario.cached) ∧
  cu_die_offset (self (snd (Scenario.parse_handed Scenario.well_formed 4
                              Scenario.cached)))
  = cu_die_offset (self Scenario.cached) ∧
  (∀ t, _abbrev_table (self Scenario.cached) = Some t →
        _abbrev_table
          (self (snd (Scenario.parse_handed Scenario.well_formed 4
                        Scenario.cached)))
        = Some t) ∧
  (∃ l, _dielist (self (snd (Scenario.parse_handed Scenario.well_formed 4
                               Scenario.cached)))
        = _dielist (self Scenario.cached) ++ l).
Proof.
  apply (parse_DIEs_frame Scenario.die_size
           (Scenario.constructor Scenario.well_formed) 4 Scenario.cached).
  apply requesting_table_fills_table_only.
Defined.

(** * The extra properties on the worked unit *)

Lemma get_abbrev_table_failure_not_cached_witness :
  fst (get_abbrev_table (Scenario.start_with ∅ Scenario.context))
  = Raise (KeyError "debug_abbrev_offset") ∧
  fst (get_abbrev_table
         (logged (Scenario.start_with (Scenario.header_of 40)
                    Scenario.failing_context) (ResolveSchema 0)))
  = Raise (ExternalError 0).
Proof.
  split.
  - apply (get_abbrev_table_failure_not_cached
             (Scenario.start_with ∅ Scenario.context)
             (Scenario.start_with ∅ Scenario.context)
             (KeyError "debug_abbrev_offset")).
    vm_compute. reflexivity.
  - apply (get_abbrev_table_failure_not_cached
             (Scenario.start_with (Scenario.header_of 40)
                Scenario.failing_context)
             (logged (Scenario.start_with (Scenario.header_of 40)
                        Scenario.failing_context) (ResolveSchema 0))
             (ExternalError 0)).
    vm_compute. reflexivity.
Defined.

Lemma get_abbrev_table_returns_resolved_witness :
  _abbrev_table (self (snd (get_abbrev_table (Scenario.start 40))))
  = Some 1000.
Proof.
  apply (get_abbrev_table_returns_resolved (Scenario.start 40)
           (snd (get_abbrev_table (Scenario.start 40))) 1000).
  vm_compute. reflexivity.
Defined.

Lemma get_top_DIE_fresh_unit_witness :
  ∃ unit_length,
    Scenario.header_of 40 !! "unit_length" = Some unit_length ∧
    11 < 0 + unit_length + 4 ∧
    Scenario.decoder Scenario.well_formed (Scenario.unit_of 40) tt 11
    = inr (Scenario.Build_die 11 5).
Proof.
  apply (get_top_DIE_fresh_unit Scenario.die_size
           (Scenario.decoder Scenario.well_formed)
           (Scenario.header_of 40) Scenario.context
           {| initial_length_field_size := 4 |} 0 11 4
           (Scenario.Build_die 11 5) Scenario.finished).
  vm_compute. reflexivity.
Defined.

Lemma get_DIE_returns_decoded_witness :
  Scenario.decoder Scenario.well_formed
    (with_dielist (self (Scenario.start 40))
       (take (Z.to_nat 2) (_dielist (self Scenario.finished))))
    (stream (dwarfinfo (self (Scenario.start 40))))
    (cu_die_offset (self (Scenario.start 40))
     + sizes_sum Scenario.die_size
         (take (Z.to_nat 2) (_dielist (self Scenario.finished))))
  = inr (Scenario.Build_die 36 8).
Proof.
  apply (get_DIE_returns_decoded Scenario.die_size
           (Scenario.decoder Scenario.well_formed) 4 2
           (Scenario.start 40) Scenario.finished (Scenario.Build_die 36 8)).
  - reflexivity.
  - lia.
  - vm_compute. reflexivity.
Defined.

Lemma get_DIE_empty_extent_witness :
  Scenario.get Scenario.well_formed 1 5 (Scenario.start 7)
  = (Raise IndexError, logged (Scenario.start 7) ParseDIEs) ∧
  get_top_DIE Scenario.die_size (Scenario.decoder Scenario.well_formed) 1
    (Scenario.start 7)
  = (Raise IndexError, logged (Scenario.start 7) ParseDIEs).
Proof.
  apply (get_DIE_empty_extent Scenario.die_size
           (Scenario.decoder Scenario.well_formed) 1 5 (Scenario.start 7) 7).
  - reflexivity.
  - apply scenario_unit_length.
  - vm_compute. discriminate.
  - lia.
Defined.

Lemma get_DIE_missing_unit_length_witness :
  Scenario.get Scenario.well_formed 4 7
    (Scenario.start_with ∅ Scenario.context)
  = (Raise (KeyError "unit_length"),
     logged (Scenario.start_with ∅ Scenario.context) ParseDIEs).
Proof.
  apply (get_DIE_missing_unit_length Scenario.die_size
           (Scenario.decoder Scenario.well_formed) 4 7
           (Scenario.start_with ∅ Scenario.context)).
  - reflexivity.
  - reflexivity.
Defined.

Lemma dielist_last_reaches_boundary_witness :
  (∀ i : nat,
     (i < length (_dielist (self Scenario.finished)))%nat →
     cu_die_offset (self (Scenario.start 40))
     + sizes_sum Scenario.die_size
         (take i (_dielist (self Scenario.finished)))
     < boundary_of (self (Scenario.start 40)) 40) ∧
  boundary_of (self (Scenario.start 40)) 40
  ≤ cu_die_offset (self (Scenario.start 40))
    + sizes_sum Scenario.die_size (_dielist (self Scenario.finished)) ∧
  (_dielist (self Scenario.finished) = [] ↔
   boundary_of (self (Scenario.start 40)) 40
   ≤ cu_die_offset (self (Scenario.start 40))).
Proof.
  apply (dielist_last_reaches_boundary Scenario.die_size
           (Scenario.decoder Scenario.well_formed) 4
           (Scenario.start 40) Scenario.finished 40).
  - reflexivity.
  - apply scenario_unit_length.
  - vm_compute. reflexivity.
Defined.

Lemma dielist_length_bounded_witness :
  Z.of_nat (length (_dielist (self Scenario.finished)))
  ≤ boundary_of (self (Scenario.start 40)) 40
    - cu_die_offset (self (Scenario.start 40)).
Proof.
  apply (dielist_length_bounded Scenario.die_size
           (Scenario.decoder Scenario.well_formed) 4
           (Scenario.start 40) Scenario.finished 40).
  - reflexivity.
  - apply scenario_unit_length.
  - vm_compute. discriminate.
  - apply scenario_contract.
  - vm_compute. reflexivity.
Defined.

Lemma get_DIE_idempotent_witness :
  Scenario.get Scenario.well_formed 0 0 Scenario.finished
  = (Return (Scenario.Build_die 11 5), Scenario.finished) ∧
  (0 = 0 →
   get_top_DIE Scenario.die_size (Scenario.decoder Scenario.well_formed) 0
     Scenario.finished
   = (Return (Scenario.Build_die 11 5), Scenario.finished)).
Proof.
  apply (get_DIE_idempotent Scenario.die_size
           (Scenario.decoder Scenario.well_formed) 4 0 0
           (Scenario.start 40) Scenario.finished (Scenario.Build_die 11 5)).
  vm_compute. reflexivity.
Defined.

Lemma get_DIE_negative_index_alias_witness :
  Scenario.get Scenario.well_formed 0
    (2 - Z.of_nat (length (_dielist (self Scenario.finished))))
    Scenario.finished
  = Scenario.get Scenario.well_formed 0 2 Scenario.finished.
Proof.
  apply (get_DIE_negative_index_alias Scenario.die_size
           (Scenario.decoder Scenario.well_formed) 0 2 Scenario.finished).
  simpl. lia.
Defined.

Lemma get_DIE_frame_witness :
  dwarfinfo (self (snd (Scenario.get_handed Scenario.well_formed 4 0
                          (Scenario.start 40))))
  = dwarfinfo (self (Scenario.start 40)) ∧
  header (self (snd (Scenario.get_handed Scenario.well_formed 4 0
                       (Scenario.start 40))))
  = header (self (Scenario.start 40)) ∧
  structs (self (snd (Scenario.get_handed Scenario.well_formed 4 0
                        (Scenario.start 40))))
  = structs (self (Scenario.start 40)) ∧
  cu_offset (self (snd (Scenario.get_handed Scenario.well_formed 4 0
                          (Scenario.start 40))))
  = cu_offset (self (Scenario.start 40)) ∧
  cu_die_offset (self (snd (Scenario.get_handed Scenario.well_formed 4 0
                              (Scenario.start 40))))
  = cu_die_offset (self (Scenario.start 40)) ∧
  (∀ t, _abbrev_table (self (Scenario.start 40)) = Some t →
        _abbrev_table
          (self (snd (Scenario.get_handed Scenario.well_formed 4 0
                        (Scenario.start 40))))
        = Some t) ∧
  (∃ l, _dielist (self (snd (Scenario.get_handed Scenario.well_formed 4 0
                               (Scenario.start 40))))
        = _dielist (self (Scenario.start 40)) ++ l).
Proof.
  apply (get_DIE_frame Scenario.die_size
           (Scenario.constructor Scenario.well_formed) 4 0
           (Scenario.start 40)).
  apply requesting_table_fills_table_only.
Defined.
